(** * chatbot_demo.py: transcript building, response clean-up and the
      session driver.

    A shallow embedding of [src/chatbot_demo.py].  Python [str] values are
    lists of code points; the embedding covers the code points 0..255
    (Latin-1), for which [str.strip] and [str.lower] are given in full.
    Standard input is a list of results of [input()], the inference
    library is a pair of oracles (constructor and [generate]), and standard
    output together with the calls made to the library is a list of
    events. *)

From Stdlib Require Import Ascii String List Bool Arith ZArith Lia.
Import ListNotations.

Local Open Scope list_scope.

(** ** Text *)

Module Text.

(** A Python [str] restricted to code points below 256. *)
Definition text := list ascii.

(** A literal of the source. *)
Definition str (s : string) : text := list_ascii_of_string s.

Definition code (c : ascii) : nat := nat_of_ascii c.

(** [c.isspace()] on code points below 256: TAB..CR, FS..US, SPACE,
    NEL (0x85) and NBSP (0xA0). *)
Definition is_space (c : ascii) : bool :=
  let n := code c in
  ((9 <=? n) && (n <=? 13)) || ((28 <=? n) && (n <=? 32))
  || (n =? 133) || (n =? 160).

(** [c.lower()] on code points below 256: A..Z and the Latin-1 capitals
    0xC0..0xDE (0xD7, the multiplication sign, apart) move up by 32. *)
Definition lower_char (c : ascii) : ascii :=
  let n := code c in
  if ((65 <=? n) && (n <=? 90))
     || ((192 <=? n) && (n <=? 222) && negb (n =? 215))
  then ascii_of_nat (n + 32) else c.

(** [s.lower()] *)
Definition lower (s : text) : text := map lower_char s.

(** [s.lstrip()] *)
Fixpoint lstrip (s : text) : text :=
  match s with
  | [] => []
  | c :: t => if is_space c then lstrip t else s
  end.

(** [s.rstrip()] *)
Fixpoint rstrip (s : text) : text :=
  match s with
  | [] => []
  | c :: t =>
      match rstrip t with
      | [] => if is_space c then [] else [c]
      | r => c :: r
      end
  end.

(** [s.strip()] *)
Definition strip (s : text) : text := rstrip (lstrip s).

(** [s.startswith(p)] *)
Fixpoint starts_with (p s : text) : bool :=
  match p, s with
  | [], _ => true
  | _ :: _, [] => false
  | a :: p', b :: s' => Ascii.eqb a b && starts_with p' s'
  end.

(** [sep in s] *)
Fixpoint contains (sep s : text) : bool :=
  starts_with sep s ||
  match s with
  | [] => false
  | _ :: t => contains sep t
  end.

(** [s == t] *)
Fixpoint text_eqb (s t : text) : bool :=
  match s, t with
  | [], [] => true
  | a :: s', b :: t' => Ascii.eqb a b && text_eqb s' t'
  | _, _ => false
  end.

(** [s in l] for a list [l] of strings. *)
Definition member (s : text) (l : list text) : bool := existsb (text_eqb s) l.

(** [s.split(sep)] for a non-empty [sep]: occurrences are taken from the
    left and do not overlap; [skip] counts the characters of a separator
    just matched that are still to be passed over. *)
Fixpoint split_from (sep : text) (skip : nat) (s : text) : list text :=
  match s with
  | [] => [[]]
  | c :: t =>
      match skip with
      | S k => split_from sep k t
      | O =>
          if starts_with sep s
          then [] :: split_from sep (length sep - 1) t
          else match split_from sep 0 t with
               | w :: ws => (c :: w) :: ws
               | [] => [[c]]
               end
      end
  end.

Definition split (sep s : text) : list text := split_from sep 0 s.

(** [sep.join(items)] *)
Fixpoint join (sep : text) (items : list text) : text :=
  match items with
  | [] => []
  | [x] => x
  | x :: rest => x ++ sep ++ join sep rest
  end.

(** The text before the first occurrence of [sep], all of [s] when there
    is none: what [s.split(sep)[0]] evaluates to (lemma [split_hd]). *)
Fixpoint before (sep s : text) : text :=
  if starts_with sep s then []
  else match s with
       | [] => []
       | c :: t => c :: before sep t
       end.

(** [all(c.isspace() for c in s)] *)
Definition blank (s : text) : bool := forallb is_space s.

End Text.

Import Text.

(** ** The response clean-up (lines 44-50 and 103-109) *)

Module Sanitizer.

Definition MARKER : text := str "Human:".
Definition NL : ascii := ascii_of_nat 10.
Definition BREAK : text := [NL; NL].

(** [if "Human:" in response: response = response.split("Human:")[0].strip()] *)
Definition marker_truncation (response : text) : text :=
  if contains MARKER response
  then strip (hd [] (split MARKER response))
  else response.

(** [if "\n\n" in response: response = response.split("\n\n")[0].strip()] *)
Definition break_truncation (response : text) : text :=
  if contains BREAK response
  then strip (hd [] (split BREAK response))
  else response.

(** From [outputs[0].outputs[0].text] to the value appended to the
    history. *)
Definition sanitize (raw : text) : text :=
  let response := strip raw in
  let response := marker_truncation response in
  let response := break_truncation response in
  response.

End Sanitizer.

Import Sanitizer.

(** ** The transcript (lines 29-36, 53, 71, 86, 94-95, 112) *)

Module Transcript.

(** [f"Human: {user_input}"] *)
Definition human_line (user_input : text) : text := str "Human: " ++ user_input.

(** [f"Assistant: {response}"] *)
Definition assistant_line (response : text) : text :=
  str "Assistant: " ++ response.

(** [conversation_history.append(line)] *)
Definition append (conversation_history : list text) (line : text) : list text :=
  conversation_history ++ [line].

(** ["\n".join(conversation_history) + "\nAssistant:"] *)
Definition render (conversation_history : list text) : text :=
  join [NL] conversation_history ++ NL :: str "Assistant:".

(** The turns of the data model: a role and a content. *)
Inductive Role := Human | Assistant.

Record Turn := { role : Role; content : text }.

Definition role_eqb (a b : Role) : bool :=
  match a, b with
  | Human, Human | Assistant, Assistant => true
  | _, _ => false
  end.

Definition other (r : Role) : Role :=
  match r with Human => Assistant | Assistant => Human end.

(** Appending a turn is one of the two [append] calls of the loops. *)
Definition append_turn (conversation_history : list text) (t : Turn) : list text :=
  match role t with
  | Human => append conversation_history (human_line (content t))
  | Assistant => append conversation_history (assistant_line (content t))
  end.

(** The history after appending the turns [ts], in order, to an empty one. *)
Definition transcript_of (ts : list Turn) : list text := fold_left append_turn ts [].

(** The role a line of the history was appended under, read off its label. *)
Definition role_of_line (line : text) : option Role :=
  if starts_with (str "Human: ") line then Some Human
  else if starts_with (str "Assistant: ") line then Some Assistant
  else None.

(** The lines carry the roles [expected], [other expected], ... in turn. *)
Fixpoint alternates (expected : Role) (h : list text) : bool :=
  match h with
  | [] => true
  | line :: rest =>
      match role_of_line line with
      | Some r => role_eqb r expected && alternates (other expected) rest
      | None => false
      end
  end.

(** The role of the most recent turn. *)
Definition last_role (h : list text) : option Role :=
  match rev h with
  | [] => None
  | line :: _ => role_of_line line
  end.

(** Following the spec's words: the label of a role, the line
    ["{role}: {content}"] of a turn, and the prompt as the turns' lines
    each followed by a newline, closed by the cue. *)
Definition role_label (r : Role) : text :=
  match r with Human => str "Human" | Assistant => str "Assistant" end.

Definition turn_line (t : Turn) : text := role_label (role t) ++ str ": " ++ content t.

Definition CUE : text := str "Assistant:".

Fixpoint prompt_of_turns (ts : list Turn) : text :=
  match ts with
  | [] => CUE
  | t :: rest => turn_line t ++ NL :: prompt_of_turns rest
  end.

End Transcript.

Import Transcript.

(** ** The world: standard input, standard output, the inference library *)

Module World.

(** What one call of [input()] gives: a line, or one of the two
    exceptions the program catches. *)
Inductive input_result :=
| Line (s : text)
| EOFError
| KeyboardInterrupt.

(** [input()] on the rest of standard input; at its end it raises
    [EOFError]. *)
Definition read (stdin : list input_result) : input_result * list input_result :=
  match stdin with
  | [] => (EOFError, [])
  | r :: rest => (r, rest)
  end.

(** [SamplingParams(temperature=0.8, top_p=0.95, max_tokens=max_tokens,
    repetition_penalty=1.2)]: the three float constants are the same in
    every call and are left out. *)
Record SamplingParams := { max_tokens : Z }.

(** A loaded model: [llm.generate([prompt], sampling_params)] followed by
    [outputs[0].outputs[0].text], for the n-th call of the session
    (sampling is random, so the text may depend on n). *)
Definition LLM := nat -> text -> SamplingParams -> text.

(** The constructor [LLM(model=..., max_model_len=..., ...)] returns a
    model or raises an [Exception] with a message. *)
Inductive init_result :=
| Loaded (llm : LLM)
| Failed (e : text).

(** The prompts of the three [input(...)] calls. *)
Inductive question := AskModel | AskMode | AskYou.

(** The texts printed, one constructor for each [print] of the source. *)
Inductive message :=
| Rule                                 (* "=" * 70 *)
| NlRule                               (* "\n" + "=" * 70 *)
| RuleNl                               (* "=" * 70 + "\n" *)
| CannedTitle                          (* CANNED DEMO MODE - ... *)
| You (user_input : text)              (* \n.. You: {user_input} *)
| Thinking                             (* .. Thinking... *)
| EraseThinking                        (* "\r" + " " * 20 + "\r" *)
| Bot (response : text)                (* .. Bot: {response} *)
| CannedCompleted                      (* Canned demo completed! *)
| InteractiveTitle                     (* INTERACTIVE MODE *)
| CommandsHeader                       (* Commands: *)
| CommandsQuit                         (* - Type 'quit', 'exit', or 'q' to end *)
| CommandsClear                        (* - Type 'clear' to start a fresh conversation *)
| GoodbyeNl                            (* \n.. Goodbye! *)
| Goodbye                              (* .. Goodbye! *)
| Cleared                              (* .. Conversation cleared! *)
| SelectModel                          (* Select model: *)
| ModelMenuEntry (key description : text)
| DefaultingToOPT                      (* \nDefaulting to OPT-125M... *)
| InvalidModelChoice (model_choice : text)
| LoadingModel                         (* \nLoading model with vLLM (CPU mode)... *)
| ModelName (name : text)              (* Model: {name}\n *)
| NoteEngine                           (* Note: This uses vLLM V1 engine (dev build) *)
| NoteStability                        (* V1 engine on CPU may have stability issues ... *)
| FailedToLoad (e : text)              (* .. Failed to load model: {e} *)
| FailureHintEngine                    (* \nThis may be due to V1 engine issues ... *)
| FailureHintNuma                      (* The NUMA node fix has been applied ... *)
| LoadedOK                             (* .. vLLM model loaded successfully on CPU!\n *)
| SelectMode                           (* Select demo mode: *)
| ModeMenuCanned                       (* 1. Canned demo (default) - ... *)
| ModeMenuInteractive                  (* 2. Interactive mode - ... *)
| DefaultingToCanned                   (* \nDefaulting to canned demo... *)
| InvalidModeChoice (choice : text).

(** What the program does to the outside, in order. *)
Inductive event :=
| Print (m : message)
| Input (q : question)
| LoadModel (path : text) (max_model_len : Z)
| Generate (prompt : text) (sampling_params : SamplingParams).

End World.

Import World.

(** ** The two loops *)

Module Loops.

(** Where a loop stands: at the head of an iteration, inside the call of
    [llm.generate] on a prompt, or left. *)
Inductive control :=
| LoopTop
| Inferring (prompt : text)
| Exited.

(** Lines 35-36 and 94-95: the user's turn is appended and the prompt is
    built from the history. *)
Definition begin_exchange (conversation_history : list text) (user_input : text)
  : control * list text :=
  let conversation_history := append conversation_history (human_line user_input) in
  let prompt := render conversation_history in
  (Inferring prompt, conversation_history).

(** Lines 41-56 and 100-115: the text returned is cleaned, appended and
    printed. *)
Definition on_reply (conversation_history : list text) (raw : text)
  : list text * list event :=
  let response := sanitize raw in
  (append conversation_history (assistant_line response),
   [Print EraseThinking; Print (Bot response)]).

Definition quit_words : list text := [str "quit"; str "exit"; str "q"].

(** [not user_input] *)
Definition is_empty (s : text) : bool :=
  match s with [] => true | _ => false end.

(** Lines 75-98: one iteration of the interactive loop up to the call of
    [llm.generate], on what [input()] gave. *)
Definition on_input (conversation_history : list text) (r : input_result)
  : control * list text * list event :=
  match r with
  | EOFError | KeyboardInterrupt => (Exited, conversation_history, [Print GoodbyeNl])
  | Line s =>
      let user_input := strip s in
      if member (lower user_input) quit_words
      then (Exited, conversation_history, [Print Goodbye])
      else if text_eqb (lower user_input) (str "clear")
      then (LoopTop, [], [Print Cleared])
      else if is_empty user_input
      then (LoopTop, conversation_history, [])
      else (begin_exchange conversation_history user_input, [Print Thinking])
  end.

(** The [while True] loop of [run_interactive_demo]: [calls] counts the
    calls of [llm.generate] made so far. *)
Fixpoint interactive_loop (llm : LLM) (sampling_params : SamplingParams)
    (calls : nat) (conversation_history : list text) (stdin : list input_result)
  : list event :=
  Input AskYou ::
  match stdin with
  | [] => snd (on_input conversation_history EOFError)
  | r :: rest =>
      match on_input conversation_history r with
      | (Exited, _, out) => out
      | (LoopTop, h, out) => out ++ interactive_loop llm sampling_params calls h rest
      | (Inferring prompt, h, out) =>
          let raw := llm calls prompt sampling_params in
          let '(h', out') := on_reply h raw in
          out ++ Generate prompt sampling_params :: out'
              ++ interactive_loop llm sampling_params (S calls) h' rest
      end
  end.

Definition run_interactive_demo (llm : LLM) (sampling_params : SamplingParams)
    (stdin : list input_result) : list event :=
  [Print NlRule; Print InteractiveTitle; Print CommandsHeader;
   Print CommandsQuit; Print CommandsClear; Print Rule]
  ++ interactive_loop llm sampling_params 0 [] stdin.

Definition canned_inputs : list text :=
  [str "Hello, how are you?";
   str "What is the capital of France?";
   str "Tell me a short joke"].

(** The [for user_input in ...] loop of [run_canned_demo]. *)
Fixpoint canned_loop (llm : LLM) (sampling_params : SamplingParams)
    (calls : nat) (conversation_history : list text) (inputs : list text)
  : list event :=
  match inputs with
  | [] => []
  | user_input :: rest =>
      match begin_exchange conversation_history user_input with
      | (Inferring prompt, h) =>
          let raw := llm calls prompt sampling_params in
          let '(h', out') := on_reply h raw in
          Print (You user_input) :: Print Thinking
            :: Generate prompt sampling_params :: out'
            ++ canned_loop llm sampling_params (S calls) h' rest
      | (_, _) => []
      end
  end.

Definition run_canned_demo (llm : LLM) (sampling_params : SamplingParams)
  : list event :=
  [Print NlRule; Print CannedTitle; Print RuleNl]
  ++ canned_loop llm sampling_params 0 [] canned_inputs
  ++ [Print NlRule; Print CannedCompleted; Print Rule].

(** The interactive loop as a transition system on (control, history):
    the environment supplies what [input()] gives and what the model
    returns. *)
Inductive interactive_step : control * list text -> control * list text -> Prop :=
| interactive_input h r :
    interactive_step (LoopTop, h) (fst (on_input h r))
| interactive_reply prompt h raw :
    interactive_step (Inferring prompt, h) (LoopTop, fst (on_reply h raw)).

Inductive interactive_reachable : control * list text -> Prop :=
| interactive_start : interactive_reachable (LoopTop, [])
| interactive_next c c' :
    interactive_reachable c -> interactive_step c c' -> interactive_reachable c'.

(** The canned loop as a transition system on (inputs left, control,
    history). *)
Inductive canned_step
  : list text * control * list text -> list text * control * list text -> Prop :=
| canned_next user_input rest h :
    canned_step (user_input :: rest, LoopTop, h)
                (rest, fst (begin_exchange h user_input), snd (begin_exchange h user_input))
| canned_reply rest prompt h raw :
    canned_step (rest, Inferring prompt, h) (rest, LoopTop, fst (on_reply h raw))
| canned_end h :
    canned_step ([], LoopTop, h) ([], Exited, h).

Inductive canned_reachable : list text * control * list text -> Prop :=
| canned_start : canned_reachable (canned_inputs, LoopTop, [])
| canned_then c c' :
    canned_reachable c -> canned_step c c' -> canned_reachable c'.

(** One completed exchange, and the history made of completed exchanges. *)
Definition exchange (p : text * text) : list text :=
  [human_line (fst p); assistant_line (snd p)].

Definition exchanges (ps : list (text * text)) : list text :=
  concat (map exchange ps).

(** The shape of the history at each point of a loop: completed
    exchanges, and inside the call of the model one more Human line, from
    which the prompt was rendered. *)
Definition well_shaped (c : control) (h : list text) : Prop :=
  match c with
  | LoopTop | Exited => exists ps, h = exchanges ps
  | Inferring prompt =>
      exists ps u, h = exchanges ps ++ [human_line u] /\ prompt = render h
  end.

(** What the Transcript invariant asks of a state: the turns alternate
    from Human on; between iterations the last turn, if any, is the
    Assistant's; while the model is called the last turn is the Human's and
    the prompt is the rendering of that very history. *)
Definition transcript_invariant (c : control) (h : list text) : Prop :=
  alternates Human h = true /\
  match c with
  | LoopTop | Exited => h = [] \/ last_role h = Some Assistant
  | Inferring prompt => last_role h = Some Human /\ prompt = render h
  end.

(** The prompts handed to [llm.generate] in a run. *)
Fixpoint prompts_sent (out : list event) : list text :=
  match out with
  | [] => []
  | Generate prompt _ :: rest => prompt :: prompts_sent rest
  | _ :: rest => prompts_sent rest
  end.

(** A prompt built on a well-formed history whose last turn is Human. *)
Definition built_on_human_turn (prompt : text) : Prop :=
  exists h, alternates Human h = true /\ last_role h = Some Human /\ prompt = render h.

End Loops.

Import Loops.

(** ** The session driver ([main]) *)

Module Driver.

Record Model := {
  name : text;
  path : text;
  description : text;
  max_len : Z
}.

(** The [models] dict, in insertion order. *)
Definition models : list (text * Model) :=
  [(str "1",
    {| name := str "facebook/opt-125m";
       path := str "facebook/opt-125m";
       description := str "OPT-125M (125M params) - Very fast, basic quality";
       max_len := 512 |});
   (str "2",
    {| name := str "Qwen2.5-1.5B-Instruct";
       path := str "/home/sameer/git/LLMs/Qwen2.5-1.5B-Instruct";
       description := str "Qwen2.5-1.5B (1.5B params) - Better quality, moderate speed";
       max_len := 2048 |});
   (str "3",
    {| name := str "SmolLM-1.7B-Instruct";
       path := str "/home/sameer/git/LLMs/SmolLM-1.7B-Instruct";
       description := str "SmolLM-1.7B (1.7B params) - Good quality, moderate speed";
       max_len := 2048 |})].

(** [models[key]], [None] standing for [KeyError]. *)
Fixpoint lookup (key : text) (d : list (text * Model)) : option Model :=
  match d with
  | [] => None
  | (k, m) :: rest => if text_eqb key k then Some m else lookup key rest
  end.

(** [key in models] *)
Definition in_models (key : text) : bool :=
  match lookup key models with Some _ => true | None => false end.

(** Lines 146-155: the key of the model chosen, with what is printed on
    the way. *)
Definition select_model (r : input_result) : text * list event :=
  let '(model_choice, out) :=
    match r with
    | Line s => (strip s, [])
    | EOFError | KeyboardInterrupt => (str "1", [Print DefaultingToOPT])
    end in
  if negb (in_models model_choice)
  then (str "1",
        out ++ if negb (is_empty model_choice)
               then [Print (InvalidModelChoice model_choice)] else [])
  else (model_choice, out).

Inductive mode := Canned | Interactive.

(** Lines 197-208: the mode chosen, with what is printed on the way. *)
Definition select_mode (r : input_result) : mode * list event :=
  let '(choice, out) :=
    match r with
    | Line s => (strip s, [])
    | EOFError | KeyboardInterrupt => (str "1", [Print DefaultingToCanned])
    end in
  if text_eqb choice (str "2")
  then (Interactive, out)
  else (Canned,
        out ++ if negb (is_empty choice) && negb (text_eqb choice (str "1"))
               then [Print (InvalidModeChoice choice)] else []).

Section Main.

(** The constructor of the inference library. *)
Variable llm_init : text -> Z -> init_result.

(** Lines 178-209: what follows a successful load. *)
Definition after_load (selected_model : Model) (llm : LLM)
    (stdin : list input_result) : list event :=
  let max_tokens :=
    if text_eqb (name selected_model) (str "facebook/opt-125m")
    then 512%Z else 1024%Z in
  let sampling_params := {| max_tokens := max_tokens |} in
  let '(r, stdin) := read stdin in
  let '(m, out) := select_mode r in
  [Print LoadedOK; Print Rule; Print SelectMode; Print ModeMenuCanned;
   Print ModeMenuInteractive; Print Rule; Input AskMode]
  ++ out
  ++ match m with
     | Interactive => run_interactive_demo llm sampling_params stdin
     | Canned => run_canned_demo llm sampling_params
     end.

(** [main()] *)
Definition main (stdin : list input_result) : list event :=
  let '(r, stdin) := read stdin in
  let '(model_choice, out) := select_model r in
  [Print Rule; Print SelectModel]
  ++ map (fun '(key, model) => Print (ModelMenuEntry key (description model))) models
  ++ [Print Rule; Input AskModel]
  ++ out
  ++ match lookup model_choice models with
     | None => []
     | Some selected_model =>
         [Print LoadingModel; Print (ModelName (name selected_model));
          Print NoteEngine; Print NoteStability;
          LoadModel (path selected_model) (max_len selected_model)]
         ++ match llm_init (path selected_model) (max_len selected_model) with
            | Failed e =>
                [Print (FailedToLoad e); Print FailureHintEngine; Print FailureHintNuma]
            | Loaded llm => after_load selected_model llm stdin
            end
     end.

End Main.

(** The events that belong to one of the two loops. *)
Definition loop_event (e : event) : bool :=
  match e with
  | Print CannedTitle | Print InteractiveTitle => true
  | Input AskYou => true
  | Generate _ _ => true
  | _ => false
  end.

Definition load_event (e : event) : bool :=
  match e with LoadModel _ _ => true | _ => false end.

(** Any way of writing a word in capitals and small letters: letter by
    letter, the letter itself or its capital, 32 code points below. *)
Definition capital (c : ascii) : ascii := ascii_of_nat (code c - 32).

Fixpoint capitalisation_of (word s : text) : Prop :=
  match word, s with
  | [], [] => True
  | w :: word', c :: s' => (c = w \/ c = capital w) /\ capitalisation_of word' s'
  | _, _ => False
  end.

End Driver.

Import Driver.

(** ** The environment set up when the module is loaded (lines 7-13) *)

Module Environment.

(** [os.environ]: variables and their values, in insertion order. *)
Definition environ := list (text * text).

(** [os.environ.get(k)] *)
Fixpoint get (k : text) (e : environ) : option text :=
  match e with
  | [] => None
  | (k', v) :: rest => if text_eqb k' k then Some v else get k rest
  end.

(** [k in os.environ] *)
Definition has (k : text) (e : environ) : bool :=
  match get k e with Some _ => true | None => false end.

(** [del os.environ[k]] for a variable that is set. *)
Fixpoint del (k : text) (e : environ) : environ :=
  match e with
  | [] => []
  | (k', v) :: rest =>
      if text_eqb k' k then del k rest else (k', v) :: del k rest
  end.

(** [os.environ[k] = v]: the value is replaced in place, a new variable
    comes last. *)
Fixpoint set (k v : text) (e : environ) : environ :=
  match e with
  | [] => [(k, v)]
  | (k', v') :: rest =>
      if text_eqb k' k then (k, v) :: rest else (k', v') :: set k v rest
  end.

Definition THREADS_BIND : text := str "VLLM_CPU_OMP_THREADS_BIND".
Definition CPU_ONLY : text := str "VLLM_CPU_ONLY".

(** Lines 9-13. *)
Definition configure (e : environ) : environ :=
  let e := if has THREADS_BIND e then del THREADS_BIND e else e in
  set CPU_ONLY (str "1") e.

End Environment.

(** ** What is read off a run *)

Module Observations.

(** The sampling parameters handed to [llm.generate], call by call. *)
Fixpoint params_sent (out : list event) : list SamplingParams :=
  match out with
  | [] => []
  | Generate _ sp :: rest => sp :: params_sent rest
  | _ :: rest => params_sent rest
  end.

(** The replies printed after [Bot:], in order. *)
Fixpoint replies_shown (out : list event) : list text :=
  match out with
  | [] => []
  | Print (Bot response) :: rest => response :: replies_shown rest
  | _ :: rest => replies_shown rest
  end.


(** A reply as the clean-up leaves it: trimmed, without the marker and
    without a break. *)
Definition clean (response : text) : Prop :=
  contains MARKER response = false
  /\ contains BREAK response = false
  /\ strip response = response.

(** The shape of the history with the replies clean. *)
Definition clean_shaped (c : control) (h : list text) : Prop :=
  match c with
  | LoopTop | Exited =>
      exists ps, Forall (fun p => clean (snd p)) ps /\ h = exchanges ps
  | Inferring prompt =>
      exists ps u, Forall (fun p => clean (snd p)) ps
                   /\ h = exchanges ps ++ [human_line u]
  end.

(** An input line without the white space around it. *)
Definition trimmed (r : input_result) : input_result :=
  match r with
  | Line s => Line (strip s)
  | EOFError => EOFError
  | KeyboardInterrupt => KeyboardInterrupt
  end.

(** An input on which the interactive loop is left. *)
Definition leaves (r : input_result) : bool :=
  match r with
  | Line s => member (lower (strip s)) quit_words
  | EOFError | KeyboardInterrupt => true
  end.

(** An input that is a turn of the conversation: a line that is neither
    a command nor empty once trimmed. *)
Definition is_turn (r : input_result) : bool :=
  match r with
  | Line s =>
      negb (member (lower (strip s)) quit_words)
      && negb (text_eqb (lower (strip s)) (str "clear"))
      && negb (is_empty (strip s))
  | EOFError | KeyboardInterrupt => false
  end.

End Observations.

Import Observations.

(** ** A call of the model that raises *)

Module Failure.

(** [llm.generate] as it may fail: [None] stands for an exception raised
    during the call (an error of the library, or an interrupt while it
    runs).  The call at lines 40 and 99 is outside every [try], so such an
    exception leaves the loop and the function at once. *)
Definition FallibleLLM := nat -> text -> SamplingParams -> option text.

(** How a function is left: by returning, or by an exception that
    nothing caught. *)
Inductive ending := Returned | Raised.

(** The [while True] loop of [run_interactive_demo] over a model that may
    raise: what is printed and called, and how the loop is left. *)
Fixpoint interactive_loop_fallible (llm : FallibleLLM)
    (sampling_params : SamplingParams) (calls : nat)
    (conversation_history : list text) (stdin : list input_result)
  : list event * ending :=
  match stdin with
  | [] => (Input AskYou :: snd (on_input conversation_history EOFError), Returned)
  | r :: rest =>
      match on_input conversation_history r with
      | (Exited, _, out) => (Input AskYou :: out, Returned)
      | (LoopTop, h, out) =>
          let '(tail, e) :=
            interactive_loop_fallible llm sampling_params calls h rest in
          (Input AskYou :: out ++ tail, e)
      | (Inferring prompt, h, out) =>
          match llm calls prompt sampling_params with
          | None =>
              (Input AskYou :: out ++ [Generate prompt sampling_params], Raised)
          | Some raw =>
              let '(h', out') := on_reply h raw in
              let '(tail, e) :=
                interactive_loop_fallible llm sampling_params (S calls) h' rest in
              (Input AskYou :: out ++ Generate prompt sampling_params :: out' ++ tail, e)
          end
      end
  end.



End Failure.

Import Failure.

(** ** Facts about the text operations *)

Module TextFacts.

Lemma text_eqb_eq (s t : text) : text_eqb s t = true <-> s = t.
Proof.
  revert t; induction s as [|a s IH]; intros [|b t]; simpl; split;
    try congruence; try reflexivity.
  - intros H. apply andb_true_iff in H as [Hab Hst].
    apply Ascii.eqb_eq in Hab. apply IH in Hst. congruence.
  - intros H. injection H as -> ->. apply andb_true_iff. split.
    + apply Ascii.eqb_refl.
    + now apply IH.
Qed.

Lemma starts_with_spec (p s : text) :
  starts_with p s = true <-> exists r, s = p ++ r.
Proof.
  revert s; induction p as [|a p IH]; intros s; simpl.
  - split; [intros _; now exists s | reflexivity].
  - destruct s as [|b s].
    + split; [discriminate | intros [r Hr]; discriminate].
    + rewrite andb_true_iff, Ascii.eqb_eq, IH. split.
      * intros [-> [r ->]]. now exists r.
      * intros [r Hr]. injection Hr as -> ->. split; [reflexivity | now exists r].
Qed.

Lemma starts_with_app (p s r : text) :
  starts_with p s = true -> starts_with p (s ++ r) = true.
Proof.
  rewrite !starts_with_spec. intros [q ->]. exists (q ++ r). now rewrite app_assoc.
Qed.

Lemma starts_with_length (p s : text) :
  starts_with p s = true -> length p <= length s.
Proof.
  rewrite starts_with_spec. intros [r ->]. rewrite length_app. lia.
Qed.

Lemma starts_with_app_inv (p a r : text) :
  starts_with p (a ++ r) = true -> length p <= length a -> starts_with p a = true.
Proof.
  revert a; induction p as [|x p IH]; intros a; simpl; [reflexivity|].
  destruct a as [|y a]; simpl; [lia|].
  rewrite !andb_true_iff. intros [Hxy H] Hlen. split; [assumption|].
  apply IH; [assumption | lia].
Qed.

Lemma contains_cons (sep : text) (c : ascii) (s : text) :
  contains sep (c :: s) = starts_with sep (c :: s) || contains sep s.
Proof. reflexivity. Qed.

Lemma contains_length (sep s : text) :
  contains sep s = true -> length sep <= length s.
Proof.
  induction s as [|c s IH].
  - simpl. rewrite orb_false_r. apply starts_with_length.
  - rewrite contains_cons, orb_true_iff. intros [H|H].
    + now apply starts_with_length.
    + apply IH in H. simpl. lia.
Qed.

Lemma contains_spec (sep s : text) :
  contains sep s = true <-> exists p r, s = p ++ sep ++ r.
Proof.
  induction s as [|c s IH].
  - simpl. rewrite orb_false_r, starts_with_spec. split.
    + intros [r Hr]. now exists [], r.
    + intros [p [r Hr]]. symmetry in Hr.
      apply app_eq_nil in Hr as [-> Hr]. now exists r.
  - rewrite contains_cons, orb_true_iff, starts_with_spec, IH. split.
    + intros [[r Hr]|[p [r Hr]]].
      * now exists [], r.
      * exists (c :: p), r. simpl. now rewrite Hr.
    + intros [[|x p] [r Hr]].
      * left. now exists r.
      * right. injection Hr as _ Hr. now exists p, r.
Qed.

Lemma contains_app_l (sep a b : text) :
  contains sep a = true -> contains sep (a ++ b) = true.
Proof.
  rewrite !contains_spec. intros [p [r ->]]. exists p, (r ++ b).
  now rewrite <- !app_assoc.
Qed.

Lemma contains_app_r (sep a b : text) :
  contains sep b = true -> contains sep (a ++ b) = true.
Proof.
  rewrite !contains_spec. intros [p [r ->]]. exists (a ++ p), r.
  now rewrite <- !app_assoc.
Qed.

(** [split(sep)[0]] is the text before the first occurrence. *)
Lemma split_hd (sep s : text) : hd [] (split sep s) = before sep s.
Proof.
  unfold split. induction s as [|c s IH]; cbn [split_from before].
  - now destruct (starts_with sep []).
  - destruct (starts_with sep (c :: s)); [reflexivity|].
    rewrite <- IH. now destruct (split_from sep 0 s).
Qed.

Lemma before_prefix (sep s : text) : exists r, s = before sep s ++ r.
Proof.
  induction s as [|c s [r IH]]; simpl.
  - exists []. now destruct (starts_with sep []).
  - destruct (starts_with sep (c :: s)).
    + now exists (c :: s).
    + exists r. simpl. now rewrite <- IH.
Qed.

Lemma before_split (sep s : text) :
  contains sep s = true -> exists r, s = before sep s ++ sep ++ r.
Proof.
  induction s as [|c s IH].
  - simpl. rewrite orb_false_r. intros H. rewrite H.
    apply starts_with_spec in H as [r Hr]. now exists r.
  - rewrite contains_cons. simpl before. destruct (starts_with sep (c :: s)) eqn:E.
    + intros _. apply starts_with_spec in E as [r Hr]. now exists r.
    + simpl. intros H. destruct (IH H) as [r Hr]. exists r. simpl. now rewrite <- Hr.
Qed.

Lemma before_free (sep s : text) :
  sep <> [] -> contains sep (before sep s) = false.
Proof.
  intros Hsep. induction s as [|c s IH]; simpl before.
  - destruct sep; [congruence|]. now destruct (starts_with _ _).
  - destruct (starts_with sep (c :: s)) eqn:E.
    + destruct sep; [congruence | reflexivity].
    + rewrite contains_cons, IH, orb_false_r.
      destruct (starts_with sep (c :: before sep s)) eqn:E'; [|reflexivity].
      destruct (before_prefix sep s) as [r Hr].
      apply starts_with_app with (r := r) in E'.
      simpl app in E'. rewrite <- Hr in E'. congruence.
Qed.

(** Once the separator has been met, what follows does not move its
    first occurrence. *)
Lemma before_app (sep a r : text) :
  contains sep a = true -> before sep (a ++ r) = before sep a.
Proof.
  induction a as [|c a IH].
  - simpl. rewrite orb_false_r. intros H. rewrite H.
    destruct sep as [|x sep]; [now destruct r | discriminate].
  - intros H. simpl app. simpl before.
    destruct (starts_with sep (c :: a)) eqn:E.
    + apply starts_with_app with (r := r) in E. simpl app in E. now rewrite E.
    + rewrite contains_cons, E in H. simpl in H.
      destruct (starts_with sep (c :: a ++ r)) eqn:E'.
      * apply (starts_with_app_inv sep (c :: a) r) in E'; [congruence|].
        apply contains_length in H. simpl. lia.
      * now rewrite IH.
Qed.

(** *** Trimming *)

Lemma lstrip_blank (s : text) : blank s = true -> lstrip s = [].
Proof.
  induction s as [|c s IH]; simpl; [reflexivity|].
  intros H. apply andb_true_iff in H as [Hc Hs]. rewrite Hc. now apply IH.
Qed.

Lemma lstrip_split (s : text) : exists w, s = w ++ lstrip s /\ blank w = true.
Proof.
  induction s as [|c s [w [Hw Hb]]]; simpl.
  - now exists [].
  - destruct (is_space c) eqn:E.
    + exists (c :: w). simpl. rewrite E, Hb. split; [now rewrite <- Hw | reflexivity].
    + now exists [].
Qed.

Lemma lstrip_idem (s : text) : lstrip (lstrip s) = lstrip s.
Proof.
  induction s as [|c s IH]; simpl; [reflexivity|].
  destruct (is_space c) eqn:E; [assumption|]. simpl. now rewrite E.
Qed.

Lemma lstrip_app (a b : text) : lstrip a <> [] -> lstrip (a ++ b) = lstrip a ++ b.
Proof.
  induction a as [|c a IH]; simpl; [congruence|].
  destruct (is_space c); [assumption | reflexivity].
Qed.

Lemma rstrip_nil_blank (s : text) : rstrip s = [] <-> blank s = true.
Proof.
  induction s as [|c s IH]; simpl; [tauto|].
  destruct (rstrip s) eqn:E.
  - destruct (is_space c); simpl.
    + tauto.
    + split; discriminate.
  - split; [discriminate|]. rewrite andb_true_iff. intros [_ H].
    apply IH in H. discriminate.
Qed.

Lemma rstrip_app (a b : text) :
  rstrip (a ++ b) = match rstrip b with [] => rstrip a | r => a ++ r end.
Proof.
  induction a as [|c a IH]; simpl.
  - now destruct (rstrip b).
  - rewrite IH. destruct (rstrip b) as [|x r].
    + reflexivity.
    + now destruct a.
Qed.

Lemma lstrip_app_any (a b : text) :
  lstrip (a ++ b) = match lstrip a with [] => lstrip b | r => r ++ b end.
Proof.
  induction a as [|c a IH]; cbn [app lstrip]; [reflexivity|].
  destruct (is_space c); [exact IH | reflexivity].
Qed.

(** Trimming on the right is trimming on the left of the mirror image. *)
Lemma rstrip_rev (s : text) : rstrip s = rev (lstrip (rev s)).
Proof.
  induction s as [|c s IH]; [reflexivity|].
  cbn [rstrip rev]. rewrite lstrip_app_any, IH.
  destruct (lstrip (rev s)) as [|x r]; cbn [rev lstrip].
  - now destruct (is_space c).
  - rewrite rev_app_distr. cbn [rev app].
    destruct (rev r ++ [x]) eqn:E; [|reflexivity].
    now apply app_eq_nil in E as [_ E].
Qed.

Example split_commas :
  split (str ",") (str "a,b,,c,") = [str "a"; str "b"; str ""; str "c"; str ""].
Proof. reflexivity. Qed.

Example split_no_overlap :
  split (str "aa") (str "aaaxaa") = [str ""; str "ax"; str ""].
Proof. reflexivity. Qed.

Lemma rstrip_split (s : text) : exists w, s = rstrip s ++ w /\ blank w = true.
Proof.
  induction s as [|c s [w [Hw Hb]]]; simpl.
  - now exists [].
  - destruct (rstrip s) as [|x r].
    + simpl in Hw. subst w. destruct (is_space c) eqn:Ec.
      * exists (c :: s). simpl. now rewrite Ec, Hb.
      * now exists s.
    + exists w. split; [|assumption]. simpl. f_equal. exact Hw.
Qed.

Lemma rstrip_idem (s : text) : rstrip (rstrip s) = rstrip s.
Proof.
  induction s as [|c s IH]; simpl; [reflexivity|].
  destruct (rstrip s) as [|x r] eqn:E.
  - destruct (is_space c) eqn:Ec; simpl; [reflexivity | now rewrite Ec].
  - simpl in *. rewrite IH. reflexivity.
Qed.

(** A text that ends on a character that is no space keeps what is
    appended to it, trimmed. *)
Lemma rstrip_app_fixed (m r : text) :
  m <> [] -> rstrip m = m -> rstrip (m ++ r) = m ++ rstrip r.
Proof.
  intros Hm Hfix. rewrite rstrip_app. destruct (rstrip r).
  - now rewrite app_nil_r.
  - reflexivity.
Qed.

Lemma rstrip_lstrip_nonempty (s : text) : lstrip s <> [] -> rstrip (lstrip s) <> [].
Proof.
  intros H E. apply H. apply rstrip_nil_blank in E.
  rewrite <- lstrip_idem. now apply lstrip_blank.
Qed.

Lemma lstrip_rstrip (s : text) : lstrip s = s -> lstrip (rstrip s) = rstrip s.
Proof.
  destruct s as [|c s]; [reflexivity|]. simpl.
  destruct (is_space c) eqn:E.
  - intros H. exfalso. destruct (lstrip_split s) as [w [Hw _]].
    apply (f_equal (@length ascii)) in H. rewrite Hw in H at 2.
    simpl in H. rewrite length_app in H. lia.
  - intros _. destruct (rstrip s); simpl; now rewrite E.
Qed.

Lemma strip_idem (s : text) : strip (strip s) = strip s.
Proof.
  unfold strip. rewrite lstrip_rstrip by apply lstrip_idem. apply rstrip_idem.
Qed.

Lemma strip_lstrip (s : text) : strip (lstrip s) = strip s.
Proof. unfold strip. now rewrite lstrip_idem. Qed.

Lemma contains_lstrip_inv (m s : text) :
  contains m (lstrip s) = true -> contains m s = true.
Proof.
  destruct (lstrip_split s) as [w [Hw _]]. intros H. rewrite Hw.
  now apply contains_app_r.
Qed.

Lemma contains_rstrip_inv (m s : text) :
  contains m (rstrip s) = true -> contains m s = true.
Proof.
  destruct (rstrip_split s) as [w [Hw _]]. intros H. rewrite Hw.
  now apply contains_app_l.
Qed.

Lemma contains_strip_inv (m s : text) :
  contains m (strip s) = true -> contains m s = true.
Proof.
  intros H. now apply contains_lstrip_inv, contains_rstrip_inv.
Qed.

Lemma contains_before_inv (m sep s : text) :
  contains m (before sep s) = true -> contains m s = true.
Proof.
  destruct (before_prefix sep s) as [r Hr]. intros H. rewrite Hr.
  now apply contains_app_l.
Qed.

End TextFacts.

(** ** The clean-up, step by step *)

Module SanitizerFacts.

Import TextFacts.

Lemma before_first (sep s : text) :
  contains sep s = true -> before sep (before sep s ++ sep) = before sep s.
Proof.
  intros H. destruct (before_split sep s H) as [r Hr].
  remember (before sep s) as p eqn:Hp.
  transitivity (before sep ((p ++ sep) ++ r)).
  - symmetry. apply before_app, contains_app_r, contains_spec.
    exists [], []. now rewrite app_nil_r.
  - now rewrite <- app_assoc, <- Hr.
Qed.

(** *** A separator that starts and ends on characters that are no space *)

Section Separator.

Variable m : ascii.
Variable M : text.
Let sep : text := m :: M.

Hypothesis head_no_space : is_space m = false.
Hypothesis ends_no_space : rstrip sep = sep.

Lemma starts_with_after_space (c : ascii) (t : text) :
  is_space c = true -> starts_with sep (c :: t) = false.
Proof.
  intros Hc. simpl. destruct (Ascii.eqb m c) eqn:E; [|reflexivity].
  apply Ascii.eqb_eq in E. congruence.
Qed.

Lemma lstrip_keeps (s : text) :
  contains sep (lstrip s) = contains sep s
  /\ before sep (lstrip s) = lstrip (before sep s).
Proof.
  induction s as [|c s [IHc IHb]]; [now split|].
  cbn [lstrip before]. destruct (is_space c) eqn:Ec.
  - rewrite contains_cons, (starts_with_after_space c s Ec).
    cbn [orb lstrip]. now rewrite Ec.
  - split; [reflexivity|]. cbn [before].
    destruct (starts_with sep (c :: s)); [reflexivity|].
    cbn [lstrip]. now rewrite Ec.
Qed.

Lemma rstrip_keeps (s : text) :
  contains sep s = true ->
  contains sep (rstrip s) = true /\ before sep (rstrip s) = before sep s.
Proof.
  intros H. destruct (before_split sep s H) as [r Hr].
  assert (Hin : contains sep (before sep s ++ sep) = true).
  { apply contains_app_r. apply contains_spec. exists [], []. now rewrite app_nil_r. }
  assert (E : rstrip s = (before sep s ++ sep) ++ rstrip r).
  { rewrite Hr at 1. rewrite rstrip_app, rstrip_app_fixed by (assumption || discriminate).
    unfold sep at 1. cbn [app]. now rewrite <- app_assoc. }
  rewrite E. split.
  - now apply contains_app_l.
  - rewrite before_app by assumption. now apply before_first.
Qed.

Lemma strip_keeps (s : text) :
  contains sep s = true ->
  contains sep (strip s) = true /\ before sep (strip s) = lstrip (before sep s).
Proof.
  intros H. destruct (lstrip_keeps s) as [Hc Hb]. unfold strip.
  destruct (rstrip_keeps (lstrip s)) as [Hc' Hb']; [congruence|].
  split; congruence.
Qed.

End Separator.

(** *** A separator without white space does not reach across a space *)

Section NoSpace.

Variable sep : text.
Hypothesis no_space : forallb (fun c => negb (is_space c)) sep = true.
Hypothesis non_empty : sep <> [].

Lemma starts_with_across (a : text) (c : ascii) (r : text) :
  is_space c = true -> starts_with sep (a ++ c :: r) = true -> starts_with sep a = true.
Proof.
  intros Hc. clear non_empty. revert no_space a.
  induction sep as [|x p IH]; intros Hns a; [reflexivity|].
  simpl in Hns. apply andb_true_iff in Hns as [Hx Hp].
  destruct a as [|y a]; simpl.
  - intros H. apply andb_true_iff in H as [H _]. apply Ascii.eqb_eq in H.
    subst. rewrite Hc in Hx. discriminate.
  - rewrite !andb_true_iff. intros [Hxy H]. split; [assumption|]. now apply IH.
Qed.

Lemma before_across (a : text) (c : ascii) (r : text) :
  is_space c = true -> contains sep a = false ->
  contains sep (a ++ c :: r) = contains sep r
  /\ before sep (a ++ c :: r) = a ++ c :: before sep r.
Proof.
  intros Hc. induction a as [|y a IH]; intros Ha.
  - assert (E : starts_with sep (c :: r) = false).
    { destruct (starts_with sep (c :: r)) eqn:E; [|reflexivity].
      apply (starts_with_across [] c r Hc) in E.
      destruct sep; [congruence | discriminate]. }
    cbn [app before]. now rewrite contains_cons, E.
  - rewrite contains_cons in Ha. apply orb_false_iff in Ha as [H1 H2].
    destruct (IH H2) as [IHc IHb].
    assert (E : starts_with sep ((y :: a) ++ c :: r) = false).
    { destruct (starts_with sep ((y :: a) ++ c :: r)) eqn:E; [|reflexivity].
      apply starts_with_across in E; [congruence | assumption]. }
    cbn [app before] in *. rewrite contains_cons, E, IHc, IHb. now split.
Qed.

End NoSpace.

(** *** The two separators of the program *)

Lemma marker_truncation_strip (raw : text) :
  contains MARKER raw = true ->
  marker_truncation (strip raw) = strip (before MARKER raw).
Proof.
  intros H. unfold marker_truncation. rewrite split_hd.
  destruct (strip_keeps "H"%char (str "uman:") eq_refl eq_refl raw H) as [Hc Hb].
  change ("H"%char :: str "uman:") with MARKER in *.
  rewrite Hc, Hb. apply strip_lstrip.
Qed.

Lemma break_truncation_before (s : text) :
  break_truncation s = if contains BREAK s then strip (before BREAK s) else s.
Proof. unfold break_truncation. now rewrite split_hd. Qed.

Lemma rstrip_break (t : text) :
  rstrip (BREAK ++ t) = match rstrip t with [] => [] | r => BREAK ++ r end.
Proof. rewrite rstrip_app. now destruct (rstrip t). Qed.

Lemma before_drop (sep w x y : text) :
  before sep (w ++ x) = w ++ y -> before sep x = y.
Proof.
  induction w as [|c w IH]; [trivial|]. cbn [app before].
  destruct (starts_with sep (c :: w ++ x)); [discriminate|].
  intros H. injection H as H. now apply IH.
Qed.

(** The trimmed form of a text [p] that starts on a character that is no
    space, followed by a break and by [t]. *)
Lemma strip_at_break (p t : text) :
  lstrip p = p -> p <> [] ->
  strip (p ++ BREAK ++ t)
  = match rstrip t with [] => rstrip p | r => (p ++ BREAK) ++ r end.
Proof.
  intros Hl Hne. unfold strip. rewrite lstrip_app by congruence.
  rewrite Hl, rstrip_app, rstrip_break.
  destruct (rstrip t); [reflexivity | now rewrite <- app_assoc].
Qed.

(** When that break is the first one, the break step leaves [p], trimmed,
    whatever comes after the break. *)
Lemma break_truncation_cut (p t : text) :
  lstrip p = p -> p <> [] ->
  contains BREAK p = false -> before BREAK (p ++ BREAK) = p ->
  break_truncation (strip (p ++ BREAK ++ t)) = strip p.
Proof.
  intros Hl Hne Hfree Hfirst. rewrite break_truncation_before.
  assert (Hp : strip p = rstrip p) by (unfold strip; now rewrite Hl).
  rewrite strip_at_break by assumption. destruct (rstrip t) as [|x r].
  - destruct (contains BREAK (rstrip p)) eqn:Ec; [|now rewrite Hp].
    apply contains_rstrip_inv in Ec. congruence.
  - assert (Hin : contains BREAK (p ++ BREAK) = true).
    { apply contains_app_r. reflexivity. }
    rewrite (contains_app_l _ _ _ Hin), before_app by assumption.
    now rewrite Hfirst.
Qed.

(** The marker step on such a text keeps the break: a marker does not
    start before it. *)
Lemma before_marker_after_break (p t : text) :
  contains MARKER p = false ->
  before MARKER (p ++ BREAK ++ t) = p ++ BREAK ++ before MARKER t.
Proof.
  intros Hp.
  destruct (before_across MARKER eq_refl ltac:(discriminate) p NL (NL :: t) eq_refl Hp)
    as [_ H1].
  destruct (before_across MARKER eq_refl ltac:(discriminate) [] NL t eq_refl eq_refl)
    as [_ H2].
  cbn [app] in H2. change (BREAK ++ t) with (NL :: NL :: t).
  rewrite H1, H2. reflexivity.
Qed.

(** The whole clean-up of a text whose first break follows some text that
    is not blank and holds no marker. *)
Lemma sanitize_at_break (raw : text) :
  contains BREAK raw = true ->
  contains MARKER (before BREAK raw) = false ->
  strip (before BREAK raw) <> [] ->
  sanitize raw = strip (before BREAK raw).
Proof.
  intros Hb Hm Hn.
  destruct (before_split BREAK raw Hb) as [R HR].
  pose proof (before_first BREAK raw Hb) as Hfirst.
  pose proof (before_free BREAK raw ltac:(discriminate)) as Hfree.
  remember (before BREAK raw) as P eqn:HP. clear HP.
  assert (HlP : lstrip P <> []) by (intros E; apply Hn; unfold strip; now rewrite E).
  destruct (lstrip_split P) as [w [Hw _]].
  rewrite <- (strip_lstrip P).
  assert (Hraw : strip raw = strip (lstrip P ++ BREAK ++ R)).
  { unfold strip. rewrite HR, !lstrip_app, lstrip_idem by (now rewrite ?lstrip_idem).
    reflexivity. }
  assert (Hfree' : contains BREAK (lstrip P) = false).
  { destruct (contains BREAK (lstrip P)) eqn:E; [|reflexivity].
    apply contains_lstrip_inv in E. congruence. }
  assert (Hm' : contains MARKER (lstrip P) = false).
  { destruct (contains MARKER (lstrip P)) eqn:E; [|reflexivity].
    apply contains_lstrip_inv in E. congruence. }
  assert (Hfirst' : before BREAK (lstrip P ++ BREAK) = lstrip P).
  { apply (before_drop BREAK w). rewrite app_assoc, <- Hw. now rewrite Hfirst. }
  remember (lstrip P) as p eqn:Hp.
  assert (Hl : lstrip p = p) by (subst p; apply lstrip_idem).
  unfold sanitize. rewrite Hraw. unfold marker_truncation at 1.
  destruct (contains MARKER (strip (p ++ BREAK ++ R))) eqn:Ec.
  - rewrite split_hd. rewrite strip_at_break in * by assumption.
    destruct (rstrip R) as [|x r].
    + apply contains_rstrip_inv in Ec. congruence.
    + rewrite <- app_assoc, before_marker_after_break by assumption.
      now apply break_truncation_cut.
  - now apply break_truncation_cut.
Qed.

(** The marker is absent from what the clean-up returns, once it was cut
    at the marker. *)
Lemma break_truncation_free (s : text) :
  contains MARKER s = false -> contains MARKER (break_truncation s) = false.
Proof.
  intros H. rewrite break_truncation_before.
  destruct (contains BREAK s); [|assumption].
  destruct (contains MARKER (strip (before BREAK s))) eqn:E; [|reflexivity].
  apply contains_strip_inv, contains_before_inv in E. congruence.
Qed.

End SanitizerFacts.

(** ** The transcript and its rendering *)

Module TranscriptFacts.

Lemma turn_line_human (c : text) :
  turn_line {| role := Human; content := c |} = human_line c.
Proof. reflexivity. Qed.

Lemma turn_line_assistant (c : text) :
  turn_line {| role := Assistant; content := c |} = assistant_line c.
Proof. reflexivity. Qed.

Lemma append_turn_line (h : list text) (t : Turn) :
  append_turn h t = h ++ [turn_line t].
Proof. now destruct t as [[] c]. Qed.

Lemma fold_append_turn (ts : list Turn) (h : list text) :
  fold_left append_turn ts h = h ++ map turn_line ts.
Proof.
  revert h; induction ts as [|t ts IH]; intros h; simpl.
  - now rewrite app_nil_r.
  - now rewrite IH, append_turn_line, <- app_assoc.
Qed.

Lemma transcript_of_lines (ts : list Turn) : transcript_of ts = map turn_line ts.
Proof. unfold transcript_of. now rewrite fold_append_turn. Qed.

Lemma join_cons (sep x y : text) (rest : list text) :
  join sep (x :: y :: rest) = x ++ sep ++ join sep (y :: rest).
Proof. reflexivity. Qed.

Lemma render_lines (t : Turn) (ts : list Turn) :
  render (map turn_line (t :: ts)) = prompt_of_turns (t :: ts).
Proof.
  revert t; induction ts as [|u ts IH]; intros t.
  - reflexivity.
  - specialize (IH u). unfold render in *. cbn [map] in *.
    rewrite join_cons. cbn [prompt_of_turns] in *.
    rewrite <- !app_assoc. cbn [app]. now rewrite IH.
Qed.

End TranscriptFacts.

Import TextFacts SanitizerFacts TranscriptFacts.

(** ** Rendering *)

(** C1.  Whatever turns were appended, the prompt is their lines
    ["{role}: {content}"] in the order of appending, separated by
    newlines, followed by a newline and the cue ["Assistant:"]; once a
    turn has been appended (the only case in which the loops render), that
    is every turn's line followed by a newline, then the cue. *)
Theorem render_appended_turns (t : Turn) (ts : list Turn) :
  render (transcript_of ts) = join [NL] (map turn_line ts) ++ [NL] ++ CUE
  /\ render (transcript_of (t :: ts)) = prompt_of_turns (t :: ts)
  /\ (forall h u, begin_exchange h u
                  = (Inferring (join [NL] (h ++ [human_line u]) ++ [NL] ++ CUE),
                     h ++ [human_line u])).
Proof.
  split; [|split].
  - now rewrite transcript_of_lines.
  - rewrite transcript_of_lines. apply render_lines.
  - reflexivity.
Qed.

(** ** The clean-up *)

(** C3, as the code has it.  When the raw text holds the marker, the
    result is computed from the text before the first marker alone: that
    text trimmed, and cut again at its first break when it still has one;
    the marker does not occur in the result. *)
Theorem sanitize_cuts_at_marker (raw : text) :
  contains MARKER raw = true ->
  sanitize raw = break_truncation (strip (before MARKER raw))
  /\ contains MARKER (sanitize raw) = false
  /\ (contains BREAK (strip (before MARKER raw)) = false ->
      sanitize raw = strip (before MARKER raw)).
Proof.
  intros H. unfold sanitize.
  rewrite (marker_truncation_strip raw H).
  split; [reflexivity | split].
  - apply break_truncation_free.
    destruct (contains MARKER (strip (before MARKER raw))) eqn:E; [|reflexivity].
    apply contains_strip_inv in E.
    rewrite before_free in E; [discriminate | discriminate].
  - intros Hb. rewrite break_truncation_before. now rewrite Hb.
Qed.

Lemma sanitize_cuts_at_marker_witness :
  sanitize (str "  Paris. Human: and Rome?") = str "Paris.".
Proof.
  destruct (sanitize_cuts_at_marker (str "  Paris. Human: and Rome?") eq_refl)
    as [_ [_ H]].
  rewrite H; reflexivity.
Defined.

(** C3 as stated fails: with a break before the marker the result is
    shorter than the trimmed text before the marker. *)
Lemma sanitize_marker_counterexample :
  let raw := str "a" ++ BREAK ++ str "b Human: c" in
  contains MARKER raw = true
  /\ strip (before MARKER raw) = str "a" ++ BREAK ++ str "b"
  /\ sanitize raw = str "a"
  /\ sanitize raw <> strip (before MARKER raw).
Proof. repeat split. discriminate. Qed.

(** C4, as the code has it.  When the first break of the raw text comes
    after some text that is not blank and holds no marker, the result is
    the text before that break, trimmed.  (The raw text is trimmed before
    the two cuts as well, so a break in its leading white space is gone
    before the break step looks for one.) *)
Theorem sanitize_cuts_at_break (raw : text) :
  contains BREAK raw = true ->
  contains MARKER (before BREAK raw) = false ->
  strip (before BREAK raw) <> [] ->
  sanitize raw = strip (before BREAK raw).
Proof. apply sanitize_at_break. Qed.

Lemma sanitize_cuts_at_break_witness :
  sanitize (str " Paris." ++ BREAK ++ str "It is in France. Human: ok")
  = str "Paris.".
Proof.
  rewrite sanitize_cuts_at_break; [reflexivity | reflexivity | reflexivity | discriminate].
Defined.

(** C4 as stated fails: a raw text that opens with a break is not cut
    there; the text before the break is empty, the result is not. *)
Lemma sanitize_break_counterexample :
  let raw := BREAK ++ str "hello" in
  contains BREAK raw = true
  /\ contains MARKER raw = false
  /\ strip (before BREAK raw) = []
  /\ sanitize raw = str "hello"
  /\ sanitize raw <> strip (before BREAK raw).
Proof. repeat split. discriminate. Qed.

(** C5.  When the raw text holds both the marker and a break, in either
    order, the text is first cut at the marker (the text before the first
    marker, trimmed), and the break step then works on that result: it
    cuts it at its first break when there is one and leaves it otherwise. *)
Theorem sanitize_marker_then_break (raw : text) :
  contains MARKER raw = true ->
  contains BREAK raw = true ->
  let cut := strip (before MARKER raw) in
  marker_truncation (strip raw) = cut
  /\ sanitize raw = break_truncation (marker_truncation (strip raw))
  /\ sanitize raw = if contains BREAK cut then strip (before BREAK cut) else cut.
Proof.
  intros Hm _ cut. pose proof (marker_truncation_strip raw Hm) as E.
  split; [exact E | split; [reflexivity|]].
  unfold sanitize. rewrite E. apply break_truncation_before.
Qed.

Lemma sanitize_marker_then_break_witness :
  sanitize (str "Human: x" ++ BREAK ++ str "y") = []
  /\ sanitize (str "a" ++ BREAK ++ str "b Human: c") = str "a".
Proof.
  split.
  - destruct (sanitize_marker_then_break (str "Human: x" ++ BREAK ++ str "y")
                eq_refl eq_refl) as [_ [_ H]].
    rewrite H; reflexivity.
  - destruct (sanitize_marker_then_break (str "a" ++ BREAK ++ str "b Human: c")
                eq_refl eq_refl) as [_ [_ H]].
    rewrite H; reflexivity.
Defined.

(** ** The session driver *)

Module DriverFacts.

Lemma member_In (s : text) (l : list text) : member s l = true <-> In s l.
Proof.
  unfold member. rewrite existsb_exists. split.
  - intros [x [Hx E]]. apply text_eqb_eq in E. now subst.
  - intros H. exists s. split; [assumption | now apply text_eqb_eq].
Qed.

Lemma text_eqb_refl (s : text) : text_eqb s s = true.
Proof. now apply text_eqb_eq. Qed.

(** The model chosen is always one of the table, and choosing prints at
    most one line. *)
Lemma select_model_cases (r : input_result) :
  exists key m out,
    select_model r = (key, out) /\ lookup key models = Some m
    /\ (out = [] \/ out = [Print DefaultingToOPT]
        \/ exists c, out = [Print (InvalidModelChoice c)]).
Proof.
  assert (D : exists m, lookup (str "1") models = Some m)
    by (eexists; vm_compute; reflexivity).
  destruct D as [m1 D].
  assert (I1 : in_models (str "1") = true) by (vm_compute; reflexivity).
  destruct r as [s| |]; unfold select_model.
  - destruct (lookup (strip s) models) as [m|] eqn:E.
    + assert (I : in_models (strip s) = true) by (unfold in_models; now rewrite E).
      rewrite I. cbn [negb]. exists (strip s), m, []. auto.
    + assert (I : in_models (strip s) = false) by (unfold in_models; now rewrite E).
      rewrite I. cbn [negb]. exists (str "1"), m1. eexists.
      split; [reflexivity|]. split; [assumption|].
      destruct (is_empty (strip s)); cbn [negb app]; eauto.
  - rewrite I1. cbn [negb]. exists (str "1"), m1, [Print DefaultingToOPT]. auto.
  - rewrite I1. cbn [negb]. exists (str "1"), m1, [Print DefaultingToOPT]. auto.
Qed.

Lemma main_unfold (llm_init : text -> Z -> init_result) (stdin : list input_result) :
  main llm_init stdin
  = [Print Rule; Print SelectModel]
    ++ map (fun '(key, model) => Print (ModelMenuEntry key (description model))) models
    ++ [Print Rule; Input AskModel]
    ++ snd (select_model (fst (read stdin)))
    ++ match lookup (fst (select_model (fst (read stdin)))) models with
       | None => []
       | Some selected_model =>
           [Print LoadingModel; Print (ModelName (name selected_model));
            Print NoteEngine; Print NoteStability;
            LoadModel (path selected_model) (max_len selected_model)]
           ++ match llm_init (path selected_model) (max_len selected_model) with
              | Failed e =>
                  [Print (FailedToLoad e); Print FailureHintEngine;
                   Print FailureHintNuma]
              | Loaded llm => after_load selected_model llm (snd (read stdin))
              end
       end.
Proof.
  unfold main. destruct (read stdin) as [r rest]. cbn [fst snd].
  now destruct (select_model r).
Qed.

End DriverFacts.

Import DriverFacts.

(** C6.  When the constructor of the model raises, [main] makes that one
    attempt to load, prints the error with its two hints and returns:
    nothing is loaded a second time, the mode is never asked, no loop is
    entered and no inference is made. *)
Theorem main_load_failure
    (llm_init : text -> Z -> init_result) (stdin : list input_result) (e : text) :
  (forall m, lookup (fst (select_model (fst (read stdin)))) models = Some m ->
             llm_init (path m) (max_len m) = Failed e) ->
  exists m pre,
    lookup (fst (select_model (fst (read stdin)))) models = Some m
    /\ main llm_init stdin
       = pre ++ [LoadModel (path m) (max_len m); Print (FailedToLoad e);
                 Print FailureHintEngine; Print FailureHintNuma]
    /\ existsb load_event pre = false
    /\ existsb loop_event (main llm_init stdin) = false
    /\ ~ In (Input AskMode) (main llm_init stdin).
Proof.
  intros Hfail. rewrite main_unfold.
  destruct (select_model_cases (fst (read stdin))) as (key & m & out & Hs & Hl & Hout).
  rewrite Hs in *. cbn [fst snd] in *. rewrite Hl. rewrite (Hfail m Hl).
  exists m.
  exists ([Print Rule; Print SelectModel]
          ++ map (fun '(key, model) => Print (ModelMenuEntry key (description model)))
                 models
          ++ [Print Rule; Input AskModel] ++ out
          ++ [Print LoadingModel; Print (ModelName (name m));
              Print NoteEngine; Print NoteStability]).
  split; [reflexivity|].
  destruct Hout as [->|[->|[c ->]]]; (split; [reflexivity|]);
    (split; [reflexivity|]); (split; [reflexivity|]);
    cbn; intuition discriminate.
Qed.

Lemma main_load_failure_witness :
  exists m pre,
    m = {| name := str "SmolLM-1.7B-Instruct";
           path := str "/home/sameer/git/LLMs/SmolLM-1.7B-Instruct";
           description := str "SmolLM-1.7B (1.7B params) - Good quality, moderate speed";
           max_len := 2048 |}
    /\ main (fun _ _ => Failed (str "out of memory")) [Line (str "3"); Line (str "2")]
       = pre ++ [LoadModel (path m) (max_len m); Print (FailedToLoad (str "out of memory"));
                 Print FailureHintEngine; Print FailureHintNuma].
Proof.
  destruct (main_load_failure (fun _ _ => Failed (str "out of memory"))
              [Line (str "3"); Line (str "2")] (str "out of memory")
              (fun _ _ => eq_refl)) as (m & pre & Hm & Hmain & _).
  exists m, pre. split; [|exact Hmain].
  vm_compute in Hm. now injection Hm as <-.
Defined.


(** ** The interactive loop *)

Module LoopFacts.

Lemma on_input_quit (h : list text) (s : text) :
  In (lower (strip s)) quit_words -> on_input h (Line s) = (Exited, h, [Print Goodbye]).
Proof.
  intros H. apply member_In in H. unfold on_input. now rewrite H.
Qed.

Lemma on_input_clear (h : list text) (s : text) :
  lower (strip s) = str "clear" -> on_input h (Line s) = (LoopTop, [], [Print Cleared]).
Proof. intros H. unfold on_input. now rewrite H. Qed.

Lemma on_input_empty (h : list text) (s : text) :
  strip s = [] -> on_input h (Line s) = (LoopTop, h, []).
Proof. intros H. unfold on_input. now rewrite H. Qed.

(** The words a capitalisation of [word] can be are finitely many; each
    is settled by evaluation. *)
Ltac capitalisations H :=
  cbn in H;
  repeat match goal with
         | H' : match ?s with [] => _ | _ :: _ => _ end |- _ => destruct s
         | H' : False |- _ => contradiction
         | H' : True |- _ => clear H'
         | H' : _ /\ _ |- _ => destruct H'
         | H' : _ \/ _ |- _ => destruct H'
         | H' : ?c = _ |- _ => subst c
         end.

Lemma capitalisation_quit (s : text) :
  capitalisation_of (str "quit") s -> lower (strip s) = str "quit".
Proof. intros H. capitalisations H; reflexivity. Qed.

Lemma capitalisation_exit (s : text) :
  capitalisation_of (str "exit") s -> lower (strip s) = str "exit".
Proof. intros H. capitalisations H; reflexivity. Qed.

Lemma capitalisation_q (s : text) :
  capitalisation_of (str "q") s -> lower (strip s) = str "q".
Proof. intros H. capitalisations H; reflexivity. Qed.

Lemma capitalisation_clear (s : text) :
  capitalisation_of (str "clear") s -> lower (strip s) = str "clear".
Proof. intros H. capitalisations H; reflexivity. Qed.

End LoopFacts.

Import LoopFacts.

(** C8.  One iteration of the interactive loop: a line that is [quit],
    [exit] or [q] (trimmed, in any case) ends the loop with the farewell;
    [clear] empties the history and the loop goes on with the next input;
    a line that is empty once trimmed changes nothing and the loop asks
    again; end of input and an interrupt end the loop with the farewell
    and no exception. *)
Theorem interactive_loop_commands
    (llm : LLM) (sp : SamplingParams) (calls : nat)
    (h : list text) (rest : list input_result) :
  (forall s, In (lower (strip s)) quit_words ->
     on_input h (Line s) = (Exited, h, [Print Goodbye])
     /\ interactive_loop llm sp calls h (Line s :: rest)
        = [Input AskYou; Print Goodbye])
  /\ (forall s, lower (strip s) = str "clear" ->
     on_input h (Line s) = (LoopTop, [], [Print Cleared])
     /\ interactive_loop llm sp calls h (Line s :: rest)
        = Input AskYou :: Print Cleared :: interactive_loop llm sp calls [] rest)
  /\ (forall s, strip s = [] ->
     on_input h (Line s) = (LoopTop, h, [])
     /\ interactive_loop llm sp calls h (Line s :: rest)
        = Input AskYou :: interactive_loop llm sp calls h rest)
  /\ (forall r, r = EOFError \/ r = KeyboardInterrupt ->
     on_input h r = (Exited, h, [Print GoodbyeNl])
     /\ interactive_loop llm sp calls h (r :: rest)
        = [Input AskYou; Print GoodbyeNl])
  /\ interactive_loop llm sp calls h [] = [Input AskYou; Print GoodbyeNl].
Proof.
  repeat apply conj.
  - intros s H. pose proof (on_input_quit h s H) as E.
    split; [exact E|]. cbn [interactive_loop]. now rewrite E.
  - intros s H. pose proof (on_input_clear h s H) as E.
    split; [exact E|]. cbn [interactive_loop]. now rewrite E.
  - intros s H. pose proof (on_input_empty h s H) as E.
    split; [exact E|]. cbn [interactive_loop]. now rewrite E.
  - intros r [->| ->]; split; reflexivity.
  - reflexivity.
Qed.

Lemma interactive_loop_commands_witness :
  let h := [str "Human: hi"; str "Assistant: hello"] in
  let llm : LLM := fun _ _ _ => str "fine" in
  let sp := {| max_tokens := 512 |} in
  interactive_loop llm sp 1 h [Line (str "quit"); Line (str "never read")]
  = [Input AskYou; Print Goodbye]
  /\ on_input h (Line (str "exit")) = (Exited, h, [Print Goodbye])
  /\ on_input h (Line (str "q")) = (Exited, h, [Print Goodbye])
  /\ interactive_loop llm sp 1 h [Line (str "clear"); Line (str "quit")]
     = [Input AskYou; Print Cleared; Input AskYou; Print Goodbye]
  /\ interactive_loop llm sp 1 h [Line (str ""); Line (str "quit")]
     = [Input AskYou; Input AskYou; Print Goodbye]
  /\ interactive_loop llm sp 1 h [KeyboardInterrupt; Line (str "quit")]
     = [Input AskYou; Print GoodbyeNl].
Proof.
  intros h llm sp.
  repeat apply conj.
  - apply (interactive_loop_commands llm sp 1 h [Line (str "never read")]).
    cbn. auto.
  - apply (interactive_loop_commands llm sp 1 h []). cbn. auto.
  - apply (interactive_loop_commands llm sp 1 h []). cbn. auto.
  - destruct (interactive_loop_commands llm sp 1 h [Line (str "quit")])
      as (_ & H & _).
    destruct (H (str "clear") eq_refl) as [_ E]. rewrite E. reflexivity.
  - destruct (interactive_loop_commands llm sp 1 h [Line (str "quit")])
      as (_ & _ & H & _).
    destruct (H (str "") eq_refl) as [_ E]. rewrite E. reflexivity.
  - destruct (interactive_loop_commands llm sp 1 h [Line (str "quit")])
      as (_ & _ & _ & H & _).
    destruct (H KeyboardInterrupt (or_intror eq_refl)) as [_ E]. exact E.
Defined.

(** C10.  The commands are recognised in any capitalisation: a line that
    spells [quit], [exit] or [q] in capitals and small letters ends the
    loop, one that spells [clear] empties the history; neither is taken
    as a turn of the conversation (nothing is appended, no prompt is
    built). *)
Theorem commands_any_capitalisation (h : list text) (s : text) :
  (capitalisation_of (str "quit") s \/ capitalisation_of (str "exit") s
   \/ capitalisation_of (str "q") s ->
   on_input h (Line s) = (Exited, h, [Print Goodbye]))
  /\ (capitalisation_of (str "clear") s ->
      on_input h (Line s) = (LoopTop, [], [Print Cleared])).
Proof.
  split.
  - intros H. apply on_input_quit.
    destruct H as [H|[H|H]];
      [rewrite (capitalisation_quit s H) | rewrite (capitalisation_exit s H)
       | rewrite (capitalisation_q s H)]; cbn; auto.
  - intros H. apply on_input_clear. now apply capitalisation_clear.
Qed.

Lemma commands_any_capitalisation_witness :
  let h := [str "Human: hi"; str "Assistant: hello"] in
  on_input h (Line (str "QUIT")) = (Exited, h, [Print Goodbye])
  /\ on_input h (Line (str "Exit")) = (Exited, h, [Print Goodbye])
  /\ on_input h (Line (str "Q")) = (Exited, h, [Print Goodbye])
  /\ on_input h (Line (str "Clear")) = (LoopTop, [], [Print Cleared]).
Proof.
  intros h. repeat apply conj.
  - apply (commands_any_capitalisation h (str "QUIT")). left. cbn. tauto.
  - apply (commands_any_capitalisation h (str "Exit")). right. left. cbn. tauto.
  - apply (commands_any_capitalisation h (str "Q")). right. right. cbn. tauto.
  - apply (commands_any_capitalisation h (str "Clear")). cbn. tauto.
Defined.

(** ** The Transcript invariant *)

Module InvariantFacts.

Lemma role_of_human_line (u : text) : role_of_line (human_line u) = Some Human.
Proof. reflexivity. Qed.

Lemma role_of_assistant_line (r : text) :
  role_of_line (assistant_line r) = Some Assistant.
Proof. reflexivity. Qed.

Lemma exchanges_cons (p : text * text) (ps : list (text * text)) :
  exchanges (p :: ps) = human_line (fst p) :: assistant_line (snd p) :: exchanges ps.
Proof. reflexivity. Qed.

Lemma exchanges_snoc (ps : list (text * text)) (u r : text) :
  exchanges (ps ++ [(u, r)]) = (exchanges ps ++ [human_line u]) ++ [assistant_line r].
Proof.
  unfold exchanges. rewrite map_app, concat_app. cbn [map concat exchange fst snd].
  now rewrite app_nil_r, <- app_assoc.
Qed.

Lemma alternates_exchanges (ps : list (text * text)) (rest : list text) :
  alternates Human (exchanges ps ++ rest) = alternates Human rest.
Proof.
  induction ps as [|p ps IH]; [reflexivity|].
  rewrite exchanges_cons. cbn [app alternates].
  rewrite role_of_human_line, role_of_assistant_line. cbn [role_eqb other andb].
  exact IH.
Qed.

Lemma last_role_snoc (h : list text) (line : text) :
  last_role (h ++ [line]) = role_of_line line.
Proof. unfold last_role. now rewrite rev_app_distr. Qed.

Lemma last_role_exchanges (ps : list (text * text)) :
  exchanges ps = [] \/ last_role (exchanges ps) = Some Assistant.
Proof.
  destruct ps as [|p ps] using rev_ind; [now left | right].
  destruct p as [u r]. rewrite exchanges_snoc, last_role_snoc.
  apply role_of_assistant_line.
Qed.

(** The shape gives the invariant. *)
Lemma well_shaped_invariant (c : control) (h : list text) :
  well_shaped c h -> transcript_invariant c h.
Proof.
  assert (Top : forall ps,
             alternates Human (exchanges ps) = true
             /\ (exchanges ps = [] \/ last_role (exchanges ps) = Some Assistant)).
  { intros ps. split; [|apply last_role_exchanges].
    rewrite <- (app_nil_r (exchanges ps)). now rewrite alternates_exchanges. }
  unfold transcript_invariant.
  destruct c as [|prompt|]; cbn [well_shaped].
  - intros [ps ->]. apply Top.
  - intros (ps & u & -> & ->). split; [|split; [|reflexivity]].
    + rewrite alternates_exchanges. reflexivity.
    + rewrite last_role_snoc. apply role_of_human_line.
  - intros [ps ->]. apply Top.
Qed.

Lemma begin_exchange_shape (ps : list (text * text)) (u : text) :
  well_shaped (fst (begin_exchange (exchanges ps) u))
              (snd (begin_exchange (exchanges ps) u)).
Proof. cbn. now exists ps, u. Qed.

Lemma on_reply_shape (prompt : text) (h : list text) (raw : text) :
  well_shaped (Inferring prompt) h -> well_shaped LoopTop (fst (on_reply h raw)).
Proof.
  intros (ps & u & -> & _). exists (ps ++ [(u, sanitize raw)]).
  cbn [on_reply fst]. unfold append. now rewrite exchanges_snoc.
Qed.

Lemma on_input_shape (h : list text) (r : input_result) :
  well_shaped LoopTop h ->
  well_shaped (fst (fst (on_input h r))) (snd (fst (on_input h r))).
Proof.
  intros [ps ->]. destruct r as [s| |]; unfold on_input.
  - destruct (member (lower (strip s)) quit_words); [now exists ps|].
    destruct (text_eqb (lower (strip s)) (str "clear")); [now exists []|].
    destruct (is_empty (strip s)); [now exists ps|].
    apply begin_exchange_shape.
  - now exists ps.
  - now exists ps.
Qed.

Lemma interactive_reachable_shape (st : control * list text) :
  interactive_reachable st -> well_shaped (fst st) (snd st).
Proof.
  induction 1 as [|c c' _ IH Hstep].
  - now exists [].
  - destruct Hstep as [h r|prompt h raw]; cbn [fst snd] in *.
    + now apply on_input_shape.
    + now apply (on_reply_shape prompt).
Qed.

Lemma canned_reachable_shape (st : list text * control * list text) :
  canned_reachable st -> well_shaped (snd (fst st)) (snd st).
Proof.
  induction 1 as [|c c' _ IH Hstep].
  - now exists [].
  - destruct Hstep as [u rest h|rest prompt h raw|h]; cbn [fst snd] in *.
    + destruct IH as [ps ->]. apply begin_exchange_shape.
    + now apply (on_reply_shape prompt).
    + exact IH.
Qed.

Lemma prompts_sent_app (a b : list event) :
  prompts_sent (a ++ b) = prompts_sent a ++ prompts_sent b.
Proof.
  induction a as [|e a IH]; [reflexivity|].
  destruct e; cbn [app prompts_sent]; now rewrite IH.
Qed.

Lemma built_after_exchanges (ps : list (text * text)) (u : text) :
  built_on_human_turn (render (exchanges ps ++ [human_line u])).
Proof.
  exists (exchanges ps ++ [human_line u]). split; [|split; [|reflexivity]].
  - now rewrite alternates_exchanges.
  - rewrite last_role_snoc. apply role_of_human_line.
Qed.

Lemma interactive_loop_prompts (llm : LLM) (sp : SamplingParams)
    (stdin : list input_result) :
  forall calls ps,
    Forall built_on_human_turn
           (prompts_sent (interactive_loop llm sp calls (exchanges ps) stdin)).
Proof.
  induction stdin as [|r rest IH]; intros calls ps; [constructor|].
  cbn [interactive_loop]. destruct r as [s| |]; unfold on_input;
    [|constructor|constructor].
  destruct (member (lower (strip s)) quit_words); [constructor|].
  destruct (text_eqb (lower (strip s)) (str "clear")).
  { cbn [prompts_sent app]. apply (IH calls []). }
  destruct (is_empty (strip s)).
  { cbn [prompts_sent app]. apply IH. }
  unfold begin_exchange, on_reply, append. cbn [prompts_sent app].
  constructor; [apply built_after_exchanges|].
  rewrite <- exchanges_snoc. apply IH.
Qed.

Lemma canned_loop_prompts (llm : LLM) (sp : SamplingParams) (inputs : list text) :
  forall calls ps,
    Forall built_on_human_turn
           (prompts_sent (canned_loop llm sp calls (exchanges ps) inputs)).
Proof.
  induction inputs as [|u rest IH]; intros calls ps; [constructor|].
  cbn [canned_loop]. unfold begin_exchange, on_reply, append.
  cbn [prompts_sent app].
  constructor; [apply built_after_exchanges|].
  rewrite <- exchanges_snoc. apply IH.
Qed.

End InvariantFacts.

Import InvariantFacts.

(** C9.  In the interactive loop and in the canned loop, at every state
    that can be reached the turns of the history alternate, Human first;
    between iterations the history is empty or ends on an Assistant turn;
    while the model is called the history ends on a Human turn and the
    prompt is its rendering.  Accordingly every prompt handed to
    [llm.generate] in a run of either loop was built on a history whose
    last turn is Human. *)
Theorem transcript_invariant_reachable :
  (forall c h, interactive_reachable (c, h) -> transcript_invariant c h)
  /\ (forall inputs c h, canned_reachable (inputs, c, h) -> transcript_invariant c h)
  /\ (forall llm sp stdin,
         Forall built_on_human_turn (prompts_sent (run_interactive_demo llm sp stdin)))
  /\ (forall llm sp,
         Forall built_on_human_turn (prompts_sent (run_canned_demo llm sp))).
Proof.
  repeat apply conj.
  - intros c h H. apply well_shaped_invariant.
    exact (interactive_reachable_shape (c, h) H).
  - intros inputs c h H. apply well_shaped_invariant.
    exact (canned_reachable_shape (inputs, c, h) H).
  - intros llm sp stdin. unfold run_interactive_demo.
    rewrite prompts_sent_app. cbn [prompts_sent app].
    apply (interactive_loop_prompts llm sp stdin 0 []).
  - intros llm sp. unfold run_canned_demo.
    rewrite !prompts_sent_app. cbn [prompts_sent app]. rewrite app_nil_r.
    apply (canned_loop_prompts llm sp canned_inputs 0 []).
Qed.

Lemma transcript_invariant_reachable_witness :
  let h := [str "Human: hi"] in
  interactive_reachable (Inferring (render h), h)
  /\ transcript_invariant (Inferring (render h)) h
  /\ canned_reachable
       (tl canned_inputs,
        Inferring (render [str "Human: Hello, how are you?"]),
        [str "Human: Hello, how are you?"])
  /\ transcript_invariant (Inferring (render [str "Human: Hello, how are you?"]))
                          [str "Human: Hello, how are you?"].
Proof.
  intros h.
  assert (R : interactive_reachable (Inferring (render h), h)).
  { apply (interactive_next (LoopTop, [])); [constructor|].
    exact (interactive_input [] (Line (str " hi "))). }
  assert (C : canned_reachable
                (tl canned_inputs,
                 Inferring (render [str "Human: Hello, how are you?"]),
                 [str "Human: Hello, how are you?"])).
  { apply (canned_then (canned_inputs, LoopTop, [])); [constructor|].
    exact (canned_next (str "Hello, how are you?") (tl canned_inputs) []). }
  split; [exact R | split; [|split; [exact C|]]].
  - exact (proj1 transcript_invariant_reachable _ _ R).
  - exact (proj1 (proj2 transcript_invariant_reachable) _ _ _ C).
Defined.

(** * Further properties of the code *)

(** ** The clean-up *)

Module SanitizerMore.

Lemma marker_truncation_free (s : text) :
  contains MARKER (marker_truncation s) = false.
Proof.
  unfold marker_truncation. destruct (contains MARKER s) eqn:E; [|exact E].
  rewrite split_hd.
  destruct (contains MARKER (strip (before MARKER s))) eqn:E'; [|reflexivity].
  apply contains_strip_inv in E'. rewrite before_free in E'; discriminate.
Qed.

Lemma marker_truncation_trimmed (s : text) :
  strip s = s -> strip (marker_truncation s) = marker_truncation s.
Proof.
  intros H. unfold marker_truncation.
  destruct (contains MARKER s); [apply strip_idem | exact H].
Qed.

Lemma break_truncation_trimmed (s : text) :
  strip s = s -> strip (break_truncation s) = break_truncation s.
Proof.
  intros H. unfold break_truncation.
  destruct (contains BREAK s); [apply strip_idem | exact H].
Qed.

Lemma break_truncation_no_break (s : text) :
  contains BREAK (break_truncation s) = false.
Proof.
  rewrite break_truncation_before. destruct (contains BREAK s) eqn:E; [|exact E].
  destruct (contains BREAK (strip (before BREAK s))) eqn:E'; [|reflexivity].
  apply contains_strip_inv in E'. rewrite before_free in E'; discriminate.
Qed.

Lemma strip_part (s : text) : exists a b, s = a ++ strip s ++ b.
Proof.
  destruct (lstrip_split s) as [a [Ha _]].
  destruct (rstrip_split (lstrip s)) as [b [Hb _]].
  exists a, b. unfold strip. now rewrite <- Hb.
Qed.

Lemma part_of_part (x y z : text) :
  (exists a b, x = a ++ y ++ b) -> (exists a b, y = a ++ z ++ b) ->
  exists a b, x = a ++ z ++ b.
Proof.
  intros (a & b & ->) (a' & b' & ->). exists (a ++ a'), (b' ++ b).
  now rewrite <- !app_assoc.
Qed.

Lemma before_part (sep s : text) : exists a b, s = a ++ before sep s ++ b.
Proof. destruct (before_prefix sep s) as [r Hr]. now exists [], r. Qed.

Lemma self_part (s : text) : exists a b, s = a ++ s ++ b.
Proof. exists [], []. now rewrite app_nil_r. Qed.

Lemma strip_blank (s : text) : blank s = true -> strip s = [].
Proof. intros H. unfold strip. now rewrite lstrip_blank. Qed.

Lemma sanitize_result_clean (raw : text) : clean (sanitize raw).
Proof.
  unfold clean, sanitize. repeat apply conj.
  - apply break_truncation_free, marker_truncation_free.
  - apply break_truncation_no_break.
  - apply break_truncation_trimmed, marker_truncation_trimmed, strip_idem.
Qed.

Lemma sanitize_of_clean (r : text) : clean r -> sanitize r = r.
Proof.
  intros (Hm & Hb & Hs). unfold sanitize. rewrite Hs.
  unfold marker_truncation. rewrite Hm.
  unfold break_truncation. now rewrite Hb.
Qed.

End SanitizerMore.

Import SanitizerMore.

(** X1.  What the clean-up returns is trimmed, and holds neither the
    marker ["Human:"] nor a double newline, whatever the raw text. *)
Theorem sanitize_is_clean (raw : text) : clean (sanitize raw).
Proof. apply sanitize_result_clean. Qed.

(** X2.  Cleaning twice is cleaning once. *)
Theorem sanitize_idempotent (raw : text) : sanitize (sanitize raw) = sanitize raw.
Proof. apply sanitize_of_clean, sanitize_result_clean. Qed.

(** X3.  A raw text without the marker and without a double newline is
    only trimmed. *)
Theorem sanitize_plain_text (raw : text) :
  contains MARKER raw = false -> contains BREAK raw = false ->
  sanitize raw = strip raw.
Proof.
  intros Hm Hb.
  assert (Hm' : contains MARKER (strip raw) = false).
  { destruct (contains MARKER (strip raw)) eqn:E; [|reflexivity].
    apply contains_strip_inv in E. congruence. }
  assert (Hb' : contains BREAK (strip raw) = false).
  { destruct (contains BREAK (strip raw)) eqn:E; [|reflexivity].
    apply contains_strip_inv in E. congruence. }
  unfold sanitize, marker_truncation. rewrite Hm'.
  unfold break_truncation. now rewrite Hb'.
Qed.

Lemma sanitize_plain_text_witness :
  sanitize (str "  The capital of France is Paris. ")
  = str "The capital of France is Paris.".
Proof.
  rewrite sanitize_plain_text; reflexivity.
Defined.

(** X4.  The clean-up only takes text away: what it returns is one
    connected piece of the raw text, so it is never longer. *)
Theorem sanitize_is_a_piece (raw : text) :
  (exists a b, raw = a ++ sanitize raw ++ b)
  /\ length (sanitize raw) <= length raw.
Proof.
  assert (P : exists a b, raw = a ++ sanitize raw ++ b).
  { unfold sanitize. apply (part_of_part raw (strip raw)); [apply strip_part|].
    apply (part_of_part _ (marker_truncation (strip raw))).
    - unfold marker_truncation. destruct (contains MARKER (strip raw)).
      + rewrite split_hd.
        apply (part_of_part _ (before MARKER (strip raw)));
          [apply before_part | apply strip_part].
      + apply self_part.
    - unfold break_truncation.
      destruct (contains BREAK (marker_truncation (strip raw))).
      + rewrite split_hd.
        apply (part_of_part _ (before BREAK (marker_truncation (strip raw))));
          [apply before_part | apply strip_part].
      + apply self_part. }
  split; [exact P|].
  destruct P as (a & b & E). rewrite E at 2. rewrite !length_app. lia.
Qed.

(** X5.  A raw text of white space alone (the empty text among them) is
    cleaned to the empty text, and the history then gets the line
    ["Assistant: "] with nothing after the label. *)
Theorem sanitize_blank (h : list text) (raw : text) :
  blank raw = true ->
  sanitize raw = []
  /\ on_reply h raw = (h ++ [str "Assistant: "], [Print EraseThinking; Print (Bot [])]).
Proof.
  intros H.
  assert (E : sanitize raw = []) by (unfold sanitize; now rewrite strip_blank).
  split; [exact E|]. unfold on_reply. now rewrite E.
Qed.

Lemma sanitize_blank_witness :
  sanitize (str "  " ++ BREAK ++ str " ") = []
  /\ on_reply [str "Human: hi"] (str "  " ++ BREAK ++ str " ")
     = ([str "Human: hi"; str "Assistant: "], [Print EraseThinking; Print (Bot [])]).
Proof.
  destruct (sanitize_blank [str "Human: hi"] (str "  " ++ BREAK ++ str " ") eq_refl)
    as [E1 E2].
  split; [exact E1 | exact E2].
Defined.

(** ** Splitting and joining *)

Module SplitFacts.

Lemma split_from_nonempty (sep : text) (s : text) :
  forall k, split_from sep k s <> [].
Proof.
  induction s as [|c s IH]; intros k; cbn [split_from]; [discriminate|].
  destruct k as [|k]; [|apply IH].
  destruct (starts_with sep (c :: s)); [discriminate|].
  destruct (split_from sep 0 s); discriminate.
Qed.

Lemma join_cons_more (sep w : text) (ws : list text) :
  ws <> [] -> join sep (w :: ws) = w ++ sep ++ join sep ws.
Proof. destruct ws; [congruence | reflexivity]. Qed.

Lemma join_cons_char (sep : text) (c : ascii) (w : text) (ws : list text) :
  join sep ((c :: w) :: ws) = c :: join sep (w :: ws).
Proof. destruct ws; reflexivity. Qed.

Lemma join_split_from (sep : text) :
  sep <> [] ->
  forall s k, join sep (split_from sep k s) = skipn k s.
Proof.
  intros Hsep. induction s as [|c s IH]; intros k.
  - now rewrite skipn_nil.
  - cbn [split_from]. destruct k as [|k]; [|apply IH].
    cbn [skipn]. destruct (starts_with sep (c :: s)) eqn:E.
    + rewrite join_cons_more by apply split_from_nonempty.
      rewrite IH. cbn [app].
      apply starts_with_spec in E as [r Hr].
      destruct sep as [|x sep]; [congruence|].
      cbn [app] in Hr. injection Hr as -> ->.
      replace (length (x :: sep) - 1) with (length sep) by (cbn [length]; lia).
      rewrite skipn_app, skipn_all, Nat.sub_diag. reflexivity.
    + specialize (IH 0). cbn [skipn] in IH.
      destruct (split_from sep 0 s) as [|w ws].
      * cbn in IH. now subst.
      * now rewrite join_cons_char, IH.
Qed.

Lemma join_snoc (sep : text) (h : list text) (x : text) :
  h <> [] -> join sep (h ++ [x]) = join sep h ++ sep ++ x.
Proof.
  induction h as [|y h IH]; [congruence|]. intros _.
  destruct h as [|z h]; [reflexivity|].
  change ((y :: z :: h) ++ [x]) with (y :: (z :: h) ++ [x]).
  rewrite join_cons_more by discriminate.
  rewrite IH by discriminate.
  rewrite (join_cons_more sep y (z :: h)) by discriminate.
  now rewrite <- !app_assoc.
Qed.

End SplitFacts.

Import SplitFacts.

(** X6.  Splitting loses nothing: the pieces of [s.split(sep)], joined
    again with the separator, are [s]; and there is always at least one
    piece, so [split(sep)[0]] never fails. *)
Theorem join_split (sep s : text) :
  sep <> [] -> join sep (split sep s) = s /\ split sep s <> [].
Proof.
  intros H. split.
  - unfold split. now rewrite join_split_from.
  - apply split_from_nonempty.
Qed.

Lemma join_split_witness :
  join (str "Human:") (split (str "Human:") (str "a Human: b Human: c"))
  = str "a Human: b Human: c".
Proof.
  apply (join_split (str "Human:") (str "a Human: b Human: c")). discriminate.
Defined.

(** ** Prompts from one exchange to the next *)

(** X7.  The context grows by appending: the prompt of the next exchange
    is the prompt of this one, followed by a space, the cleaned reply, a
    newline, the new Human line, a newline and the cue. *)
Theorem next_prompt_extends (h : list text) (u raw u' : text) :
  let h1 := snd (begin_exchange h u) in
  let h2 := snd (begin_exchange (fst (on_reply h1 raw)) u') in
  fst (begin_exchange h u) = Inferring (render h1)
  /\ fst (begin_exchange (fst (on_reply h1 raw)) u') = Inferring (render h2)
  /\ render h2
     = render h1 ++ str " " ++ sanitize raw ++ NL :: human_line u' ++ NL :: CUE.
Proof.
  cbn [begin_exchange on_reply fst snd].
  split; [reflexivity | split; [reflexivity|]].
  unfold render, append.
  rewrite (join_snoc [NL] ((h ++ [human_line u]) ++ [_])) by (now destruct h).
  rewrite (join_snoc [NL] (h ++ [human_line u])) by (now destruct h).
  unfold assistant_line. rewrite <- !app_assoc. reflexivity.
Qed.

(** ** The interactive loop, run by run *)

Module LoopMore.

(** The three ways an iteration can go. *)
Lemma on_input_cases (h : list text) (r : input_result) :
  (leaves r = true /\ is_turn r = false
   /\ exists m, on_input h r = (Exited, h, [Print m]) /\ (m = Goodbye \/ m = GoodbyeNl))
  \/ (leaves r = false /\ is_turn r = false
      /\ exists h' out, on_input h r = (LoopTop, h', out)
                        /\ (h' = [] \/ h' = h)
                        /\ (out = [] \/ out = [Print Cleared]))
  \/ (leaves r = false /\ is_turn r = true
      /\ exists s, r = Line s
                   /\ on_input h r
                      = (Inferring (render (h ++ [human_line (strip s)])),
                         h ++ [human_line (strip s)], [Print Thinking])).
Proof.
  destruct r as [s| |]; cbn [leaves is_turn on_input].
  - destruct (member (lower (strip s)) quit_words); cbn [negb andb].
    { left. repeat split. exists Goodbye. auto. }
    destruct (text_eqb (lower (strip s)) (str "clear")); cbn [negb andb].
    { right. left. repeat split. exists [], [Print Cleared]. auto. }
    destruct (is_empty (strip s)); cbn [negb].
    { right. left. repeat split. exists h, []. auto. }
    right. right. repeat split. now exists s.
  - left. repeat split. exists GoodbyeNl. auto.
  - left. repeat split. exists GoodbyeNl. auto.
Qed.

Lemma loop_on_turn (llm : LLM) (sp : SamplingParams) (calls : nat)
    (h : list text) (s : text) (rest : list input_result) :
  is_turn (Line s) = true ->
  let prompt := render (h ++ [human_line (strip s)]) in
  let response := sanitize (llm calls prompt sp) in
  interactive_loop llm sp calls h (Line s :: rest)
  = Input AskYou :: Print Thinking :: Generate prompt sp
      :: Print EraseThinking :: Print (Bot response)
      :: interactive_loop llm sp (S calls)
           ((h ++ [human_line (strip s)]) ++ [assistant_line response]) rest.
Proof.
  intros H. destruct (on_input_cases h (Line s)) as [(_ & E & _)|[(_ & E & _)|(_ & _ & s' & Es & E)]];
    try congruence.
  injection Es as <-. cbn [interactive_loop]. rewrite E. reflexivity.
Qed.

Lemma loop_on_leave (llm : LLM) (sp : SamplingParams) (calls : nat)
    (h : list text) (r : input_result) (rest : list input_result) :
  leaves r = true ->
  exists m, interactive_loop llm sp calls h (r :: rest) = [Input AskYou; Print m]
            /\ (m = Goodbye \/ m = GoodbyeNl).
Proof.
  intros H. destruct (on_input_cases h r) as [(_ & _ & m & E & Hm)|[(E & _)|(E & _)]];
    try congruence.
  exists m. split; [|exact Hm]. cbn [interactive_loop]. now rewrite E.
Qed.

Lemma loop_on_other (llm : LLM) (sp : SamplingParams) (calls : nat)
    (h : list text) (r : input_result) (rest : list input_result) :
  leaves r = false -> is_turn r = false ->
  exists h' out,
    interactive_loop llm sp calls h (r :: rest)
    = Input AskYou :: out ++ interactive_loop llm sp calls h' rest
    /\ (h' = [] \/ h' = h) /\ (out = [] \/ out = [Print Cleared]).
Proof.
  intros Hl Ht.
  destruct (on_input_cases h r) as [(E & _)|[(_ & _ & h' & out & E & Hh & Ho)|(_ & E & _)]];
    try congruence.
  exists h', out. split; [|now split]. cbn [interactive_loop]. now rewrite E.
Qed.

(** An induction over the iterations of a run: the property is shown for
    the end of input, for an input that leaves the loop, for a command or
    an empty line, and for a turn. *)
Lemma loop_ind (llm : LLM) (sp : SamplingParams)
    (P : nat -> list text -> list input_result -> list event -> Prop) :
  (forall calls h, P calls h [] [Input AskYou; Print GoodbyeNl]) ->
  (forall calls h r rest m,
      leaves r = true -> (m = Goodbye \/ m = GoodbyeNl) ->
      P calls h (r :: rest) [Input AskYou; Print m]) ->
  (forall calls h h' r rest out tail,
      leaves r = false -> is_turn r = false ->
      (h' = [] \/ h' = h) -> (out = [] \/ out = [Print Cleared]) ->
      P calls h' rest tail ->
      P calls h (r :: rest) (Input AskYou :: out ++ tail)) ->
  (forall calls h s rest tail,
      is_turn (Line s) = true ->
      let prompt := render (h ++ [human_line (strip s)]) in
      let response := sanitize (llm calls prompt sp) in
      P (S calls) ((h ++ [human_line (strip s)]) ++ [assistant_line response]) rest tail ->
      P calls h (Line s :: rest)
        (Input AskYou :: Print Thinking :: Generate prompt sp
           :: Print EraseThinking :: Print (Bot response) :: tail)) ->
  forall stdin calls h, P calls h stdin (interactive_loop llm sp calls h stdin).
Proof.
  intros Hend Hleave Hother Hturn.
  induction stdin as [|r rest IH]; intros calls h; [apply Hend|].
  destruct (leaves r) eqn:El.
  - destruct (loop_on_leave llm sp calls h r rest El) as (m & -> & Hm).
    now apply Hleave.
  - destruct (is_turn r) eqn:Et.
    + destruct r as [s| |]; try discriminate.
      rewrite (loop_on_turn llm sp calls h s rest Et). apply Hturn; [exact Et|].
      apply IH.
    + destruct (loop_on_other llm sp calls h r rest El Et) as (h' & out & -> & Hh & Ho).
      apply (Hother calls h h'); auto.
Qed.

End LoopMore.

Import LoopMore.

Module RunFacts.

Lemma canned_loop_cons (llm : LLM) (sp : SamplingParams) (calls : nat)
    (h : list text) (u : text) (rest : list text) :
  let prompt := render (h ++ [human_line u]) in
  let response := sanitize (llm calls prompt sp) in
  canned_loop llm sp calls h (u :: rest)
  = Print (You u) :: Print Thinking :: Generate prompt sp
      :: Print EraseThinking :: Print (Bot response)
      :: canned_loop llm sp (S calls)
           ((h ++ [human_line u]) ++ [assistant_line response]) rest.
Proof. reflexivity. Qed.

Lemma on_input_trimmed (h : list text) (r : input_result) :
  on_input h (trimmed r) = on_input h r.
Proof.
  destruct r as [s| |]; [|reflexivity|reflexivity].
  cbn [trimmed on_input]. now rewrite strip_idem.
Qed.

Lemma loop_trimmed (llm : LLM) (sp : SamplingParams) (stdin : list input_result) :
  forall calls h,
    interactive_loop llm sp calls h (map trimmed stdin)
    = interactive_loop llm sp calls h stdin.
Proof.
  induction stdin as [|r rest IH]; intros calls h; [reflexivity|].
  cbn [map interactive_loop]. rewrite on_input_trimmed.
  destruct (on_input h r) as [[c h'] out]. destruct c as [|prompt|].
  - now rewrite IH.
  - cbn [on_reply]. now rewrite IH.
  - reflexivity.
Qed.

Lemma loop_after_leave (llm : LLM) (sp : SamplingParams)
    (r : input_result) (rest rest' : list input_result) :
  leaves r = true ->
  forall pre calls h,
    interactive_loop llm sp calls h (pre ++ r :: rest)
    = interactive_loop llm sp calls h (pre ++ r :: rest').
Proof.
  intros Hr. induction pre as [|x pre IH]; intros calls h.
  - cbn [app interactive_loop].
    destruct (on_input_cases h r) as [(_ & _ & m & E & _)|[(E & _)|(E & _)]];
      try congruence.
    now rewrite E.
  - cbn [app interactive_loop].
    destruct (on_input h x) as [[c h'] out]. destruct c as [|prompt|].
    + now rewrite IH.
    + cbn [on_reply]. now rewrite IH.
    + reflexivity.
Qed.

Lemma prompts_sent_small (out : list event) :
  out = [] \/ out = [Print Cleared] -> forall tail,
  prompts_sent (out ++ tail) = prompts_sent tail
  /\ replies_shown (out ++ tail) = replies_shown tail
  /\ params_sent (out ++ tail) = params_sent tail.
Proof. intros [->| ->] tail; repeat split. Qed.


End RunFacts.

Import RunFacts.

(** X9.  Nothing that follows [quit], [exit], [q], the end of input or an
    interrupt is read: the run is the same whatever comes after. *)
Theorem nothing_is_read_after_leaving
    (llm : LLM) (sp : SamplingParams) (calls : nat) (h : list text)
    (pre : list input_result) (r : input_result) (rest rest' : list input_result) :
  leaves r = true ->
  interactive_loop llm sp calls h (pre ++ r :: rest)
  = interactive_loop llm sp calls h (pre ++ r :: rest').
Proof. intros H. now apply loop_after_leave. Qed.

Lemma nothing_is_read_after_leaving_witness :
  let llm : LLM := fun _ _ _ => str "fine" in
  interactive_loop llm {| max_tokens := 512 |} 0 []
    ([Line (str "hi")] ++ Line (str " Quit ") :: [Line (str "more"); Line (str "text")])
  = interactive_loop llm {| max_tokens := 512 |} 0 []
      ([Line (str "hi")] ++ Line (str " Quit ") :: []).
Proof.
  intros llm.
  apply (nothing_is_read_after_leaving llm {| max_tokens := 512 |} 0 []
           [Line (str "hi")] (Line (str " Quit "))).
  reflexivity.
Defined.





Module TraceFacts.

Lemma params_sent_app (a b : list event) :
  params_sent (a ++ b) = params_sent a ++ params_sent b.
Proof.
  induction a as [|e a IH]; [reflexivity|].
  destruct e; cbn [app params_sent]; now rewrite IH.
Qed.

Lemma replies_shown_app (a b : list event) :
  replies_shown (a ++ b) = replies_shown a ++ replies_shown b.
Proof.
  induction a as [|e a IH]; [reflexivity|].
  destruct e as [m| | |]; try destruct m; cbn [app replies_shown]; now rewrite IH.
Qed.


Lemma interactive_loop_params (llm : LLM) (sp : SamplingParams)
    (stdin : list input_result) (calls : nat) (h : list text) :
  Forall (eq sp) (params_sent (interactive_loop llm sp calls h stdin)).
Proof.
  revert stdin calls h.
  apply (loop_ind llm sp (fun _ _ _ out => Forall (eq sp) (params_sent out))).
  - constructor.
  - constructor.
  - intros _ _ _ _ _ out tail _ _ _ Ho IH. cbn [params_sent].
    now destruct (prompts_sent_small out Ho tail) as (_ & _ & ->).
  - intros calls h s rest tail Ht prompt response IH. cbn [params_sent].
    now constructor.
Qed.

Lemma canned_loop_params (llm : LLM) (sp : SamplingParams) (inputs : list text) :
  forall calls h, Forall (eq sp) (params_sent (canned_loop llm sp calls h inputs)).
Proof.
  induction inputs as [|u rest IH]; intros calls h; [constructor|].
  rewrite canned_loop_cons. cbn [params_sent]. constructor; [reflexivity | apply IH].
Qed.

Lemma interactive_loop_replies (llm : LLM) (sp : SamplingParams)
    (stdin : list input_result) (calls : nat) (h : list text) :
  Forall clean (replies_shown (interactive_loop llm sp calls h stdin)).
Proof.
  revert stdin calls h.
  apply (loop_ind llm sp (fun _ _ _ out => Forall clean (replies_shown out))).
  - constructor.
  - intros _ _ _ _ m _ [->| ->]; constructor.
  - intros _ _ _ _ _ out tail _ _ _ Ho IH. cbn [replies_shown].
    now destruct (prompts_sent_small out Ho tail) as (_ & -> & _).
  - intros calls h s rest tail Ht prompt response IH. cbn [replies_shown].
    constructor; [apply sanitize_result_clean | exact IH].
Qed.

Lemma canned_loop_replies (llm : LLM) (sp : SamplingParams) (inputs : list text) :
  forall calls h, Forall clean (replies_shown (canned_loop llm sp calls h inputs)).
Proof.
  induction inputs as [|u rest IH]; intros calls h; [constructor|].
  rewrite canned_loop_cons. cbn [replies_shown].
  constructor; [apply sanitize_result_clean | apply IH].
Qed.


End TraceFacts.

Import TraceFacts.

(** X12.  The sampling parameters are passed on as they are: every call
    of the model in either loop carries the parameters the loop was
    given. *)
Theorem sampling_params_forwarded
    (llm : LLM) (sp : SamplingParams) (stdin : list input_result) :
  Forall (eq sp) (params_sent (run_interactive_demo llm sp stdin))
  /\ Forall (eq sp) (params_sent (run_canned_demo llm sp)).
Proof.
  split.
  - unfold run_interactive_demo. rewrite params_sent_app. cbn [params_sent app].
    apply interactive_loop_params.
  - unfold run_canned_demo. rewrite !params_sent_app. cbn [params_sent app].
    rewrite app_nil_r. apply canned_loop_params.
Qed.

(** X13.  No reply shown to the user, in either loop, holds the marker
    ["Human:"] or a double newline, and each is trimmed, whatever the
    model returns. *)
Theorem replies_shown_are_clean
    (llm : LLM) (sp : SamplingParams) (stdin : list input_result) :
  Forall clean (replies_shown (run_interactive_demo llm sp stdin))
  /\ Forall clean (replies_shown (run_canned_demo llm sp)).
Proof.
  split.
  - unfold run_interactive_demo. rewrite replies_shown_app. cbn [replies_shown app].
    apply interactive_loop_replies.
  - unfold run_canned_demo. rewrite !replies_shown_app. cbn [replies_shown app].
    rewrite app_nil_r. apply canned_loop_replies.
Qed.


(** ** What the history holds *)

Module HistoryFacts.

Lemma in_exchanges (x : text) (ps : list (text * text)) :
  In x (exchanges ps) ->
  exists p, In p ps /\ (x = human_line (fst p) \/ x = assistant_line (snd p)).
Proof.
  induction ps as [|p ps IH]; [contradiction|].
  rewrite exchanges_cons. cbn [In]. intros [H|[H|H]].
  - exists p. auto.
  - exists p. auto.
  - destruct (IH H) as (q & Hq & Hx). exists q. auto.
Qed.

Lemma assistant_line_inj (r r' : text) : assistant_line r = assistant_line r' -> r = r'.
Proof. unfold assistant_line. apply app_inv_head. Qed.

Lemma assistant_not_human (r u : text) : assistant_line r <> human_line u.
Proof. discriminate. Qed.

Lemma clean_replies (ps : list (text * text)) (r : text) :
  Forall (fun p => clean (snd p)) ps -> In (assistant_line r) (exchanges ps) -> clean r.
Proof.
  intros Hps Hin. destruct (in_exchanges _ _ Hin) as (p & Hp & [E|E]).
  - now apply assistant_not_human in E.
  - apply assistant_line_inj in E. subst r.
    rewrite Forall_forall in Hps. now apply Hps.
Qed.

Lemma clean_shaped_replies (c : control) (h : list text) (r : text) :
  clean_shaped c h -> In (assistant_line r) h -> clean r.
Proof.
  destruct c as [|prompt|]; cbn [clean_shaped].
  - intros (ps & Hps & ->). now apply clean_replies.
  - intros (ps & u & Hps & ->) Hin. apply in_app_or in Hin as [Hin|[Hin|[]]].
    + now apply (clean_replies ps).
    + symmetry in Hin. now apply assistant_not_human in Hin.
  - intros (ps & Hps & ->). now apply clean_replies.
Qed.

Lemma on_reply_clean (prompt : text) (h : list text) (raw : text) :
  clean_shaped (Inferring prompt) h -> clean_shaped LoopTop (fst (on_reply h raw)).
Proof.
  intros (ps & u & Hps & ->). exists (ps ++ [(u, sanitize raw)]). split.
  - apply Forall_app. split; [exact Hps|].
    constructor; [apply sanitize_result_clean | constructor].
  - cbn [on_reply fst]. unfold append. now rewrite exchanges_snoc.
Qed.

Lemma on_input_clean (h : list text) (r : input_result) :
  clean_shaped LoopTop h ->
  clean_shaped (fst (fst (on_input h r))) (snd (fst (on_input h r))).
Proof.
  intros (ps & Hps & ->).
  destruct (on_input_cases (exchanges ps) r)
    as [(_ & _ & m & -> & _)|[(_ & _ & h' & out & -> & Hh & _)|(_ & _ & s & _ & ->)]];
    cbn [fst snd clean_shaped].
  - now exists ps.
  - destruct Hh as [->| ->]; [exists []; split; [constructor | reflexivity] | now exists ps].
  - now exists ps, (strip s).
Qed.

Lemma interactive_reachable_clean (st : control * list text) :
  interactive_reachable st -> clean_shaped (fst st) (snd st).
Proof.
  induction 1 as [|c c' _ IH Hstep].
  - exists []. split; [constructor | reflexivity].
  - destruct Hstep as [h r|prompt h raw]; cbn [fst snd] in *.
    + now apply on_input_clean.
    + now apply (on_reply_clean prompt).
Qed.

Lemma canned_reachable_clean (st : list text * control * list text) :
  canned_reachable st -> clean_shaped (snd (fst st)) (snd st).
Proof.
  induction 1 as [|c c' _ IH Hstep].
  - exists []. split; [constructor | reflexivity].
  - destruct Hstep as [u rest h|rest prompt h raw|h]; cbn [fst snd] in *.
    + destruct IH as (ps & Hps & ->). now exists ps, u.
    + now apply (on_reply_clean prompt).
    + exact IH.
Qed.

End HistoryFacts.

Import HistoryFacts.

(** X15.  Every Assistant line of a history that either loop can reach
    holds a cleaned reply: no marker ["Human:"], no double newline, no
    white space around it.  So no later prompt carries a reply that
    pretends to open a Human turn. *)
Theorem history_replies_are_clean :
  (forall c h r, interactive_reachable (c, h) -> In (assistant_line r) h -> clean r)
  /\ (forall inputs c h r,
         canned_reachable (inputs, c, h) -> In (assistant_line r) h -> clean r).
Proof.
  split.
  - intros c h r H. apply (clean_shaped_replies c).
    exact (interactive_reachable_clean (c, h) H).
  - intros inputs c h r H. apply (clean_shaped_replies c).
    exact (canned_reachable_clean (inputs, c, h) H).
Qed.

Lemma history_replies_are_clean_witness :
  let raw := str " Paris." ++ BREAK ++ str "Human: and Rome?" in
  let h := [str "Human: hi"; str "Assistant: Paris."] in
  interactive_reachable (LoopTop, h) /\ clean (str "Paris.").
Proof.
  intros raw h.
  assert (R : interactive_reachable (LoopTop, h)).
  { apply (interactive_next (Inferring (render [str "Human: hi"]), [str "Human: hi"])).
    - apply (interactive_next (LoopTop, [])); [constructor|].
      exact (interactive_input [] (Line (str "hi"))).
    - exact (interactive_reply (render [str "Human: hi"]) [str "Human: hi"] raw). }
  split; [exact R|].
  apply (proj1 history_replies_are_clean LoopTop h (str "Paris.") R).
  cbn. auto.
Defined.

(** X16.  White space around a line of input changes nothing: the
    interactive loop runs the same on the trimmed lines. *)
Theorem input_is_trimmed
    (llm : LLM) (sp : SamplingParams) (calls : nat) (h : list text)
    (stdin : list input_result) :
  interactive_loop llm sp calls h (map trimmed stdin)
  = interactive_loop llm sp calls h stdin
  /\ run_interactive_demo llm sp (map trimmed stdin) = run_interactive_demo llm sp stdin.
Proof.
  split; [apply loop_trimmed|].
  unfold run_interactive_demo. now rewrite loop_trimmed.
Qed.

(** ** The driver, run by run *)

Module DriverMore.

Lemma after_load_unfold (m : Model) (llm : LLM) (stdin : list input_result) :
  after_load m llm stdin
  = [Print LoadedOK; Print Rule; Print SelectMode; Print ModeMenuCanned;
     Print ModeMenuInteractive; Print Rule; Input AskMode]
    ++ snd (select_mode (fst (read stdin)))
    ++ match fst (select_mode (fst (read stdin))) with
       | Interactive =>
           run_interactive_demo llm
             {| max_tokens := if text_eqb (name m) (str "facebook/opt-125m")
                              then 512%Z else 1024%Z |}
             (snd (read stdin))
       | Canned =>
           run_canned_demo llm
             {| max_tokens := if text_eqb (name m) (str "facebook/opt-125m")
                              then 512%Z else 1024%Z |}
       end.
Proof.
  unfold after_load. destruct (read stdin) as [r rest]. cbn [fst snd].
  now destruct (select_mode r).
Qed.

Lemma select_mode_cases (r : input_result) :
  snd (select_mode r) = [] \/ snd (select_mode r) = [Print DefaultingToCanned]
  \/ exists c, snd (select_mode r) = [Print (InvalidModeChoice c)].
Proof.
  destruct r as [s| |]; unfold select_mode.
  - destruct (text_eqb (strip s) (str "2")); [now left|]. cbn [snd app].
    destruct (negb (is_empty (strip s)) && negb (text_eqb (strip s) (str "1")));
      eauto.
  - right. now left.
  - right. now left.
Qed.

Lemma lookup_models_cases (key : text) (m : Model) :
  lookup key models = Some m ->
  (key = str "1" /\ name m = str "facebook/opt-125m")
  \/ (key = str "2" /\ name m = str "Qwen2.5-1.5B-Instruct")
  \/ (key = str "3" /\ name m = str "SmolLM-1.7B-Instruct").
Proof.
  unfold models. cbn [lookup].
  destruct (text_eqb key (str "1")) eqn:E1.
  { apply text_eqb_eq in E1. intros H. injection H as <-. left. now split. }
  destruct (text_eqb key (str "2")) eqn:E2.
  { apply text_eqb_eq in E2. intros H. injection H as <-. right. left. now split. }
  destruct (text_eqb key (str "3")) eqn:E3.
  { apply text_eqb_eq in E3. intros H. injection H as <-. right. right. now split. }
  discriminate.
Qed.

Lemma interactive_loop_no_load (llm : LLM) (sp : SamplingParams)
    (stdin : list input_result) (calls : nat) (h : list text) :
  filter load_event (interactive_loop llm sp calls h stdin) = [].
Proof.
  revert stdin calls h.
  apply (loop_ind llm sp (fun _ _ _ out => filter load_event out = [])).
  - reflexivity.
  - intros _ _ _ _ m _ _. reflexivity.
  - intros _ _ _ _ _ out tail _ _ _ [->| ->] IH; exact IH.
  - intros calls h s rest tail Ht prompt response IH. exact IH.
Qed.

Lemma canned_loop_no_load (llm : LLM) (sp : SamplingParams) (inputs : list text) :
  forall calls h, filter load_event (canned_loop llm sp calls h inputs) = [].
Proof.
  induction inputs as [|u rest IH]; intros calls h; [reflexivity|].
  rewrite canned_loop_cons. cbn [filter load_event]. apply IH.
Qed.

Lemma after_load_no_load (m : Model) (llm : LLM) (stdin : list input_result) :
  filter load_event (after_load m llm stdin) = [].
Proof.
  rewrite after_load_unfold, !filter_app. cbn [filter load_event app].
  assert (E : filter load_event (snd (select_mode (fst (read stdin)))) = []).
  { destruct (select_mode_cases (fst (read stdin))) as [->|[->|[c ->]]]; reflexivity. }
  rewrite E. cbn [app].
  destruct (fst (select_mode (fst (read stdin)))).
  - unfold run_canned_demo. rewrite !filter_app, canned_loop_no_load. reflexivity.
  - unfold run_interactive_demo. rewrite filter_app, interactive_loop_no_load.
    reflexivity.
Qed.

Lemma after_load_params (m : Model) (llm : LLM) (stdin : list input_result) :
  Forall (eq {| max_tokens := if text_eqb (name m) (str "facebook/opt-125m")
                              then 512%Z else 1024%Z |})
         (params_sent (after_load m llm stdin)).
Proof.
  rewrite after_load_unfold, !params_sent_app. cbn [params_sent app].
  assert (E : params_sent (snd (select_mode (fst (read stdin)))) = []).
  { destruct (select_mode_cases (fst (read stdin))) as [->|[->|[c ->]]]; reflexivity. }
  rewrite E. cbn [app].
  destruct (fst (select_mode (fst (read stdin)))).
  - unfold run_canned_demo. rewrite !params_sent_app. cbn [params_sent app].
    rewrite app_nil_r. apply canned_loop_params.
  - unfold run_interactive_demo. rewrite params_sent_app. cbn [params_sent app].
    apply interactive_loop_params.
Qed.

Lemma main_ext (llm_init llm_init' : text -> Z -> init_result)
    (stdin : list input_result) :
  (forall m, lookup (fst (select_model (fst (read stdin)))) models = Some m ->
             llm_init (path m) (max_len m) = llm_init' (path m) (max_len m)) ->
  main llm_init stdin = main llm_init' stdin.
Proof.
  intros H. rewrite !main_unfold.
  destruct (lookup (fst (select_model (fst (read stdin)))) models) as [m|];
    [|reflexivity].
  now rewrite (H m eq_refl).
Qed.

Lemma select_model_trimmed (r : input_result) : select_model (trimmed r) = select_model r.
Proof.
  destruct r as [s| |]; [|reflexivity|reflexivity].
  unfold trimmed, select_model. now rewrite strip_idem.
Qed.

Lemma select_mode_trimmed (r : input_result) : select_mode (trimmed r) = select_mode r.
Proof.
  destruct r as [s| |]; [|reflexivity|reflexivity].
  unfold trimmed, select_mode. now rewrite strip_idem.
Qed.

Lemma read_trimmed (stdin : list input_result) :
  read (map trimmed stdin) = (trimmed (fst (read stdin)), map trimmed (snd (read stdin))).
Proof. now destruct stdin. Qed.

End DriverMore.

Import DriverMore.

(** X17.  Whatever is typed at the model menu, the key looked up is one
    of ["1"], ["2"], ["3"], so [models[model_choice]] never raises
    [KeyError]; and every run of [main] calls the constructor of the model
    exactly once, with the path and context length of that entry. *)
Theorem main_loads_the_selected_model_once
    (llm_init : text -> Z -> init_result) (stdin : list input_result) :
  exists m,
    lookup (fst (select_model (fst (read stdin)))) models = Some m
    /\ In (fst (select_model (fst (read stdin)))) [str "1"; str "2"; str "3"]
    /\ filter load_event (main llm_init stdin) = [LoadModel (path m) (max_len m)].
Proof.
  destruct (select_model_cases (fst (read stdin))) as (key & m & out & Hs & Hl & Hout).
  rewrite main_unfold, Hs. cbn [fst snd]. rewrite Hl. exists m.
  split; [reflexivity | split].
  - destruct (lookup_models_cases key m Hl) as [[-> _]|[[-> _]|[-> _]]]; cbn; auto.
  - rewrite !filter_app.
    assert (E : filter load_event out = [])
      by (destruct Hout as [->|[->|[c ->]]]; reflexivity).
    rewrite E. cbn [filter load_event app map models].
    destruct (llm_init (path m) (max_len m)) as [llm|e].
    + now rewrite after_load_no_load.
    + reflexivity.
Qed.

(** X18.  Every call of the model in a session asks for at most 512
    tokens when model 1 was selected and for at most 1024 when model 2 or
    3 was. *)
Theorem main_max_tokens
    (llm_init : text -> Z -> init_result) (stdin : list input_result) :
  Forall (fun sp => max_tokens sp
                    = if text_eqb (fst (select_model (fst (read stdin)))) (str "1")
                      then 512%Z else 1024%Z)
         (params_sent (main llm_init stdin)).
Proof.
  destruct (select_model_cases (fst (read stdin))) as (key & m & out & Hs & Hl & Hout).
  rewrite main_unfold, Hs. cbn [fst snd]. rewrite Hl.
  rewrite !params_sent_app.
  assert (E : params_sent out = [])
    by (destruct Hout as [->|[->|[c ->]]]; reflexivity).
  rewrite E. cbn [params_sent app map models].
  destruct (llm_init (path m) (max_len m)) as [llm|e]; [|constructor].
  apply (Forall_impl _ (P := eq {| max_tokens :=
                                     if text_eqb (name m) (str "facebook/opt-125m")
                                     then 512%Z else 1024%Z |}));
    [|apply after_load_params].
  intros sp <-. cbn [max_tokens].
  destruct (lookup_models_cases key m Hl) as [[-> ->]|[[-> ->]|[-> ->]]]; reflexivity.
Qed.

(** X19.  With no line to read at either menu (the input is at its end,
    or the user interrupts), the program says so, falls back to model 1
    and to the canned demo, and runs it. *)
Theorem main_without_input
    (llm_init : text -> Z -> init_result) (llm : LLM) (stdin : list input_result) :
  llm_init (str "facebook/opt-125m") 512%Z = Loaded llm ->
  (forall s, fst (read stdin) <> Line s) ->
  (forall s, fst (read (snd (read stdin))) <> Line s) ->
  exists pre,
    main llm_init stdin = pre ++ run_canned_demo llm {| max_tokens := 512 |}
    /\ In (Print DefaultingToOPT) pre
    /\ In (LoadModel (str "facebook/opt-125m") 512) pre
    /\ In (Print DefaultingToCanned) pre
    /\ existsb loop_event pre = false.
Proof.
  intros H H1 H2.
  assert (K : main llm_init stdin = main (fun _ _ => Loaded llm) stdin).
  { apply main_ext. intros m Hm.
    destruct stdin as [|[s| |] rest];
      try solve [exfalso; eapply H1; reflexivity];
      vm_compute in Hm; injection Hm as <-; exact H. }
  rewrite K. clear K H.
  destruct stdin as [|[s| |] [|[s'| |] rest]];
    try solve [exfalso; eapply H1; reflexivity];
    try solve [exfalso; eapply H2; reflexivity];
    match goal with
    | |- exists pre, main ?i ?s = _ /\ _ => exists (firstn 21 (main i s))
    end;
    (split; [reflexivity|]);
    repeat split; try reflexivity;
    cbn; repeat (first [left; reflexivity | right]).
Qed.

Lemma main_without_input_witness :
  let llm : LLM := fun _ _ _ => str "fine" in
  exists pre,
    main (fun _ _ => Loaded llm) [] = pre ++ run_canned_demo llm {| max_tokens := 512 |}
    /\ In (Print DefaultingToOPT) pre.
Proof.
  intros llm.
  destruct (main_without_input (fun _ _ => Loaded llm) llm [] eq_refl
              ltac:(discriminate) ltac:(discriminate)) as (pre & E & I & _).
  now exists pre.
Defined.

(** X20.  Once the canned demo is chosen nothing more is read: the run is
    the same whatever follows the two answers. *)
Theorem canned_demo_reads_nothing
    (llm_init : text -> Z -> init_result)
    (r1 r2 : input_result) (rest rest' : list input_result) :
  fst (select_mode r2) = Canned ->
  main llm_init (r1 :: r2 :: rest) = main llm_init (r1 :: r2 :: rest').
Proof.
  intros H. rewrite !main_unfold. cbn [read fst snd].
  destruct (lookup (fst (select_model r1)) models) as [m|]; [|reflexivity].
  destruct (llm_init (path m) (max_len m)) as [llm|e]; [|reflexivity].
  rewrite !after_load_unfold. cbn [read fst snd]. now rewrite H.
Qed.

Lemma canned_demo_reads_nothing_witness :
  let llm : LLM := fun _ _ _ => str "fine" in
  main (fun _ _ => Loaded llm) [Line (str "2"); Line (str "x"); Line (str "quit")]
  = main (fun _ _ => Loaded llm) [Line (str "2"); Line (str "x")].
Proof.
  intros llm.
  apply (canned_demo_reads_nothing (fun _ _ => Loaded llm)
           (Line (str "2")) (Line (str "x")) [Line (str "quit")] []).
  reflexivity.
Defined.

(** X21.  White space around an answer or a line changes nothing in a
    whole session: [main] runs the same on the trimmed input. *)
Theorem main_trims_its_input
    (llm_init : text -> Z -> init_result) (stdin : list input_result) :
  main llm_init (map trimmed stdin) = main llm_init stdin.
Proof.
  rewrite !main_unfold, read_trimmed. cbn [fst snd].
  rewrite select_model_trimmed.
  destruct (lookup (fst (select_model (fst (read stdin)))) models) as [m|];
    [|reflexivity].
  destruct (llm_init (path m) (max_len m)) as [llm|e]; [|reflexivity].
  rewrite !after_load_unfold, read_trimmed. cbn [fst snd].
  rewrite select_mode_trimmed.
  destruct (fst (select_mode (fst (read (snd (read stdin)))))); [reflexivity|].
  unfold run_interactive_demo. now rewrite loop_trimmed.
Qed.

(** ** The environment *)

Module EnvironmentFacts.

Import Environment.

Lemma text_eqb_neq (s t : text) : s <> t -> text_eqb s t = false.
Proof.
  intros H. destruct (text_eqb s t) eqn:E; [|reflexivity].
  apply text_eqb_eq in E. contradiction.
Qed.

Lemma get_del_same (k : text) (e : environ) : get k (del k e) = None.
Proof.
  induction e as [|[k' v] e IH]; [reflexivity|]. cbn [del].
  destruct (text_eqb k' k) eqn:E; [exact IH|]. cbn [get]. now rewrite E.
Qed.

Lemma get_del_other (k k0 : text) (e : environ) :
  k <> k0 -> get k (del k0 e) = get k e.
Proof.
  intros H. induction e as [|[k' v] e IH]; [reflexivity|]. cbn [del get].
  destruct (text_eqb k' k0) eqn:E0.
  - apply text_eqb_eq in E0. subst k'.
    rewrite (text_eqb_neq k0 k) by congruence. exact IH.
  - cbn [get]. now rewrite IH.
Qed.

Lemma get_set_same (k v : text) (e : environ) : get k (set k v e) = Some v.
Proof.
  induction e as [|[k' v'] e IH]; cbn [set get].
  - now rewrite text_eqb_refl.
  - destruct (text_eqb k' k) eqn:E; cbn [get].
    + now rewrite text_eqb_refl.
    + now rewrite E.
Qed.

Lemma get_set_other (k k0 v : text) (e : environ) :
  k <> k0 -> get k (set k0 v e) = get k e.
Proof.
  intros H. induction e as [|[k' v'] e IH]; cbn [set get].
  - now rewrite (text_eqb_neq k0 k) by congruence.
  - destruct (text_eqb k' k0) eqn:E0; cbn [get].
    + apply text_eqb_eq in E0. subst k'.
      now rewrite (text_eqb_neq k0 k) by congruence.
    + now rewrite IH.
Qed.

Lemma set_set (k v : text) (e : environ) : set k v (set k v e) = set k v e.
Proof.
  induction e as [|[k' v'] e IH]; cbn [set].
  - now rewrite text_eqb_refl.
  - destruct (text_eqb k' k) eqn:E; cbn [set].
    + now rewrite text_eqb_refl.
    + now rewrite E, IH.
Qed.

Lemma threads_bind_unset (e : environ) : get THREADS_BIND (configure e) = None.
Proof.
  unfold configure. rewrite get_set_other by discriminate.
  unfold has. destruct (get THREADS_BIND e) eqn:E; [apply get_del_same | exact E].
Qed.

End EnvironmentFacts.

(** X22.  After the set-up at the head of the module, whatever the
    environment was: [VLLM_CPU_OMP_THREADS_BIND] is not set,
    [VLLM_CPU_ONLY] is ["1"], and every other variable is as it was. *)
Theorem environment_configured (e : Environment.environ) :
  Environment.get Environment.THREADS_BIND (Environment.configure e) = None
  /\ Environment.get Environment.CPU_ONLY (Environment.configure e) = Some (str "1")
  /\ (forall k, k <> Environment.THREADS_BIND -> k <> Environment.CPU_ONLY ->
                Environment.get k (Environment.configure e) = Environment.get k e).
Proof.
  split; [apply EnvironmentFacts.threads_bind_unset | split].
  - apply EnvironmentFacts.get_set_same.
  - intros k H1 H2. unfold Environment.configure.
    rewrite EnvironmentFacts.get_set_other by exact H2.
    destruct (Environment.has Environment.THREADS_BIND e); [|reflexivity].
    now apply EnvironmentFacts.get_del_other.
Qed.

Lemma environment_configured_witness :
  let e := [(str "HOME", str "/root");
            (str "VLLM_CPU_OMP_THREADS_BIND", str "0-3");
            (str "VLLM_CPU_ONLY", str "0")] in
  Environment.get (str "HOME") (Environment.configure e) = Some (str "/root")
  /\ Environment.configure e = [(str "HOME", str "/root"); (str "VLLM_CPU_ONLY", str "1")].
Proof.
  intros e. split; [|reflexivity].
  destruct (environment_configured e) as (_ & _ & H).
  rewrite (H (str "HOME")); [reflexivity | discriminate | discriminate].
Defined.

(** X23.  Setting the environment up twice is setting it up once. *)
Theorem environment_configure_idempotent (e : Environment.environ) :
  Environment.configure (Environment.configure e) = Environment.configure e.
Proof.
  unfold Environment.configure at 1. unfold Environment.has.
  rewrite EnvironmentFacts.threads_bind_unset.
  unfold Environment.configure. apply EnvironmentFacts.set_set.
Qed.

(** ** How the interactive loop is left *)

Module EndingFacts.





End EndingFacts.

Import EndingFacts.


(** A run that a failing call cuts short: the second call raises, the
    [quit] that follows is never read and no farewell is printed. *)
Example interactive_loop_cut_short :
  let llm : FallibleLLM :=
    fun calls _ _ => match calls with 0 => Some (str " Hello! ") | _ => None end in
  interactive_loop_fallible llm {| max_tokens := 512 |} 0 []
    [Line (str "hi"); Line (str "again"); Line (str "quit")]
  = ([Input AskYou; Print Thinking;
      Generate (str "Human: hi" ++ NL :: str "Assistant:") {| max_tokens := 512 |};
      Print EraseThinking; Print (Bot (str "Hello!"));
      Input AskYou; Print Thinking;
      Generate (str "Human: hi" ++ NL :: str "Assistant: Hello!"
                  ++ NL :: str "Human: again" ++ NL :: str "Assistant:")
               {| max_tokens := 512 |}],
     Raised).
Proof. reflexivity. Qed.

(** ** The prompt after [clear] *)

Module ClearFacts.







End ClearFacts.

Import ClearFacts.



